(** * iview: the paged, prefetching cache of [cache.go]

    A shallow embedding of the resident-page set ([pageCache]), the
    in-flight tracker ([loader]), the coordinator loop of
    [startPreFetcher], the facade [CachedSlicePaged] and the range
    iterator [Get], followed by the properties proved about them.

    Go's [int] is a 64-bit integer: it is a [Z] here, and the places where
    the source does arithmetic on it wrap explicitly ([wrap64]).  A slice is
    a [list]; a channel is the number it was allocated under, and a [nil]
    channel is [None].  What a function sends, receives, closes or spawns is
    the list of [event]s it returns, in program order.  The [verbose] log
    lines are diagnostics and are left out. *)

From stdpp Require Import list sets sorting numbers strings.
From Equations Require Import Equations.

Open Scope Z_scope.

(** ** Machine integers *)

(** Two's complement wrap-around of Go's [int]. *)
Definition wrap64 (z : Z) : Z := (z + 2 ^ 63) `mod` 2 ^ 64 - 2 ^ 63.

(** The conversion to [int32], which keeps the low 32 bits. *)
Definition wrap32 (z : Z) : Z := (z + 2 ^ 31) `mod` 2 ^ 32 - 2 ^ 31.

(** ** Outcomes of a call

    A Go call returns, panics, or never comes back (a send on a [nil]
    channel). *)

Inductive outcome (A : Type) : Type :=
  | Returns (a : A)
  | Panics (msg : string)
  | Blocks.
Arguments Returns {A} a.
Arguments Panics {A} msg.
Arguments Blocks {A}.

(** ** Channels, requests, goroutines and events *)

Abbreviation chan := nat.

(** [pageRequest]: the page to load, and the optional channel to notify. *)
Record pageRequest : Type := mkRequest {
  page : Z;
  done : option chan
}.

(** The bodies of the goroutines the cache starts with [go]. *)
Inductive task : Type :=
  | LoadPage (p : Z)       (* c.loadPage(p); ready <- p *)
  | UnloadPage (p : Z)     (* c.unloadPage(p) *)
  | UnloadItem (j : nat).  (* c.items[j].Unload() *)

Inductive event : Type :=
  | SendFetch (r : pageRequest)   (* c.fetchC <- r *)
  | RecvDone (c : chan)           (* <-r.done *)
  | SendDone (c : chan) (p : Z)   (* c <- page *)
  | CloseFetch                    (* close(c.fetchC) *)
  | Go (t : task).                (* go func() { ... }() *)

Global Instance pageRequest_eq_dec : EqDecision pageRequest.
Proof. solve_decision. Defined.
Global Instance task_eq_dec : EqDecision task.
Proof. solve_decision. Defined.
Global Instance event_eq_dec : EqDecision event.
Proof. solve_decision. Defined.

(** How many times [x] occurs in [l]. *)
Definition occurrences {A} `{EqDecision A} (x : A) (l : list A) : nat :=
  length (filter (λ y, y = x) l).

(** The goroutines started by a list of events. *)
Definition spawned (evs : list event) : list task :=
  omap (λ e, match e with Go t => Some t | _ => None end) evs.

(** ** Helpers of package [slices] and the builtin [copy] *)

(** [slices.Index]: the first index of [x], or -1. *)
Definition slices_Index (l : list Z) (x : Z) : Z :=
  match list_find (λ y, y = x) l with
  | Some (i, _) => Z.of_nat i
  | None => -1
  end.

(** [slices.Contains]. *)
Definition slices_Contains (l : list Z) (x : Z) : bool :=
  bool_decide (0 ≤ slices_Index l x).

(** [slices.Sort] on integers: the ascending arrangement of the slice,
    which is unique, so the algorithm does not matter. *)
Definition slices_Sort (l : list Z) : list Z := merge_sort Z.le l.

(** [copy(dst, src)]: the first [min (len dst) (len src)] elements of [src]
    overwrite the start of [dst]; overlapping is handled as by memmove. *)
Definition go_copy (dst src : list Z) : list Z :=
  let n := Nat.min (length dst) (length src) in
  take n src ++ drop n dst.

(** ** The resident-page set *)

Record pageCache : Type := mkPageCache { pages : list Z }.

Definition cacheSize : Z := 5.

Module PageCache.

(** [var cache pageCache]: the zero value. *)
Definition empty : pageCache := mkPageCache [].

Definition contains (pc : pageCache) (page : Z) : bool :=
  slices_Contains (pages pc) page.

(** [add] returns the new set, the evicted page and whether a page was
    evicted.  The slice has at least [cacheSize + 1] elements where it is
    indexed and resliced, so neither can panic. *)
Definition add (pc : pageCache) (page : Z) : pageCache * (Z * bool) :=
  if contains pc page then (pc, (0, false))
  else if bool_decide (Z.of_nat (length (pages pc)) < cacheSize) then
    (mkPageCache (pages pc ++ [page]), (0, false))
  else
    let ps := slices_Sort (pages pc ++ [page]) in
    let i := slices_Index ps page in
    if bool_decide (cacheSize - i - 1 ≤ i) then
      let evicted := ps !!! 0%nat in
      let ps' := go_copy ps (drop 1 ps) in
      (mkPageCache (take (Z.to_nat cacheSize) ps'), (evicted, true))
    else
      let evicted := ps !!! Z.to_nat (cacheSize - 1) in
      (mkPageCache (take (Z.to_nat cacheSize) ps), (evicted, true)).

(** The operations the coordinator performs on the set. *)
Inductive op : Type :=
  | Contains (page : Z)
  | Add (page : Z).

Definition apply_op (pc : pageCache) (o : op) : pageCache :=
  match o with
  | Contains _ => pc
  | Add p => (add pc p).1
  end.

(** The set after a run of operations. *)
Definition run (ops : list op) (pc : pageCache) : pageCache :=
  foldl apply_op pc ops.

End PageCache.

(** ** The in-flight tracker *)

(** [inProgress]: an active page request. *)
Record inProgress : Type := mkInProgress {
  p : Z;
  reply : list chan
}.

Global Instance inProgress_inhabited : Inhabited inProgress :=
  populate (mkInProgress 0 []).

Record loader : Type := mkLoader { loading : list inProgress }.

Module Loader.

Definition empty : loader := mkLoader [].

(** [slices.IndexFunc] with the predicate [this.p == page]. *)
Definition index_of (l : loader) (pg : Z) : option (nat * inProgress) :=
  list_find (λ this, p this = pg) (loading l).

Definition isActive (l : loader) (pg : Z) : bool :=
  bool_decide (is_Some (index_of l pg)).

(** The closure [appendNotNil] of [track]. *)
Definition appendNotNil (s : list chan) (c : option chan) : list chan :=
  match c with
  | Some c => s ++ [c]
  | None => s
  end.

Definition track (l : loader) (req : pageRequest) : loader * bool :=
  match index_of l (page req) with
  | Some (i, e) =>
      (mkLoader (<[i := mkInProgress (p e) (appendNotNil (reply e) (done req))]>
                   (loading l)), false)
  | None =>
      (mkLoader (loading l ++ [mkInProgress (page req) (appendNotNil [] (done req))]),
       true)
  end.

(** [done] returns the new tracker and the sends it made, in order.  The
    entry is overwritten by the last one and the slice shortened by one. *)
Definition done (l : loader) (pg : Z) : loader * list event :=
  match index_of l pg with
  | Some (i, e) =>
      let sends := (λ c, SendDone c pg) <$> reply e in
      let moved := <[i := loading l !!! (length (loading l) - 1)%nat]> (loading l) in
      (mkLoader (take (length (loading l) - 1) moved), sends)
  | None => (l, [])
  end.

(** The waiter list recorded for a page, if it has an entry. *)
Definition waiters (l : loader) (pg : Z) : option (list chan) :=
  (λ ie, reply ie.2) <$> index_of l pg.

(** The page numbers tracked, in slice order. *)
Definition tracked (l : loader) : list Z := p <$> loading l.

Inductive op : Type :=
  | Track (req : pageRequest)
  | Done (pg : Z).

Definition apply_op (l : loader) (o : op) : loader :=
  match o with
  | Track req => (track l req).1
  | Done pg => (done l pg).1
  end.

Definition run (ops : list op) (l : loader) : loader := foldl apply_op l ops.

End Loader.

(** ** Stateful calls

    A call over a state [S] either returns a value, panics or blocks, and
    leaves a state behind in each case. *)

Definition proc (S A : Type) : Type := S → S * outcome A.

Definition ret {S A} (a : A) : proc S A := λ s, (s, Returns a).

Definition bind {S A B} (m : proc S A) (k : A → proc S B) : proc S B :=
  λ s, match m s with
       | (s', Returns a) => k a s'
       | (s', Panics msg) => (s', Panics msg)
       | (s', Blocks) => (s', Blocks)
       end.

Definition panic {S A} (msg : string) : proc S A := λ s, (s, Panics msg).

Declare Scope proc_scope.
Delimit Scope proc_scope with proc.
Notation "'do' x <- m ; k" := (bind m (λ x, k))
  (at level 10, x name, m at level 100, k at level 200) : proc_scope.
Notation "m ;; k" := (bind m (λ _, k))
  (at level 100, k at level 200, right associativity) : proc_scope.

(** A [for] loop over a slice: the body runs on each element in turn and
    the first panic or block ends the loop. *)
Fixpoint for_each {S A} (body : A → proc S unit) (l : list A) : proc S unit :=
  match l with
  | [] => ret tt
  | x :: l => bind (body x) (λ _, for_each body l)
  end.

(** [intCeil] returns the ceiling of a/b.  Go's [/] and [%] truncate
    towards zero and panic on a zero divisor. *)
Definition intCeil (a b : Z) : outcome Z :=
  if bool_decide (b = 0) then Panics "integer divide by zero"
  else
    let n := wrap64 (a `quot` b) in
    Returns (if bool_decide (0 < a `rem` b) then wrap64 (n + 1) else n).

(** ** The facade *)

Section Paged.

(** The type of the cached items. *)
Context {E : Type}.

Record CachedSlicePaged : Type := mkCachedSlicePaged {
  name : string;
  items : list E;
  pageSize : Z;
  fetchC : option chan   (* the request channel, [None] once stopped *)
}.

(** What a caller of the facade can observe or change: the facade itself,
    the number of the next channel [make] will allocate, and the events
    emitted so far. *)
Record client : Type := mkClient {
  self : CachedSlicePaged;
  fresh : chan;
  emitted : list event
}.

Definition emit (e : event) : proc client unit :=
  λ s, (mkClient (self s) (fresh s) (emitted s ++ [e]), Returns tt).

(** [make(chan int, 1)]. *)
Definition make_chan : proc client chan :=
  λ s, (mkClient (self s) (S (fresh s)) (emitted s), Returns (fresh s)).

(** [c.fetchC <- r]: a send on a [nil] channel blocks forever. *)
Definition send_fetch (r : pageRequest) : proc client unit :=
  λ s, match fetchC (self s) with
       | Some _ => emit (SendFetch r) s
       | None => (s, Blocks)
       end.

Definition len (c : CachedSlicePaged) : Z := Z.of_nat (length (items c)).

Definition Len (c : CachedSlicePaged) : Z := len c.

(** [numPages] returns the total number of pages. *)
Definition numPages (c : CachedSlicePaged) : outcome Z :=
  intCeil (len c) (pageSize c).

(** [0 <= p && p < c.numPages()]: [numPages] is only evaluated when the
    first test passes. *)
Definition valid_page (pg : Z) : proc client bool :=
  λ s, if bool_decide (0 ≤ pg) then
         match numPages (self s) with
         | Returns n => (s, Returns (bool_decide (pg < n)))
         | Panics msg => (s, Panics msg)
         | Blocks => (s, Blocks)
         end
       else (s, Returns false).

(** [fetchPageNow] requests a page and waits until it is loaded. *)
Definition fetchPageNow (pg : Z) : proc client unit :=
  (do ok <- valid_page pg;
   if ok : bool then
     do c <- make_chan;
     send_fetch (mkRequest pg (Some c));;
     emit (RecvDone c)
   else ret tt)%proc.

(** [fetchPagesLater] requests some pages and returns. *)
Definition fetchPagesLater (pgs : list Z) : proc client unit :=
  for_each (λ pg,
    do ok <- valid_page pg;
    if ok : bool then send_fetch (mkRequest pg None) else ret tt)%proc pgs.

(** [At].  The result [(item, true)] is [Some item] and [(zero, false)] is
    [None]. *)
Definition At (pos : Z) : proc client (option E) :=
  λ s,
    let c := self s in
    if bool_decide (len c ≤ pos) then (s, Returns None)
    else if bool_decide (pageSize c = 0) then (s, Panics "integer divide by zero")
    else
      let pg := wrap64 (pos `quot` pageSize c) in
      (fetchPagesLater [wrap64 (pg - 1); wrap64 (pg + 1)];;
       fetchPageNow pg;;
       if bool_decide (pos < 0) then panic "index out of range"
       else
         match items c !! Z.to_nat pos with
         | Some item => ret (Some item)
         | None => panic "index out of range"
         end)%proc s.

(** [stopPreFetcher] stops the fetcher goroutine. *)
Definition stopPreFetcher : proc client unit :=
  λ s,
    let c := self s in
    let stopped := mkCachedSlicePaged (name c) (items c) (pageSize c) None in
    match fetchC c with
    | Some _ => (mkClient stopped (fresh s) (emitted s ++ [CloseFetch]), Returns tt)
    | None => (mkClient stopped (fresh s) (emitted s), Returns tt)
    end.

(** [Free]: one goroutine per item, each calling [Unload] on its item. *)
Definition Free : proc client unit :=
  (stopPreFetcher;;
   λ s, for_each (λ j, emit (Go (UnloadItem j)))
          (seq 0 (length (items (self s)))) s)%proc.

(** [NewCachedSlicePaged], with [ch] the channel [startPreFetcher] makes
    for the requests. *)
Definition NewCachedSlicePaged (nm : string) (its : list E) (psz : Z)
    (ch : chan) : CachedSlicePaged :=
  mkCachedSlicePaged nm its psz (Some ch).

(** The calls on items a goroutine makes. *)
Inductive call : Type :=
  | Load (j : Z)
  | Unload (j : Z).

(** [mapPageItems]: the indices of the items of page [pg], each handed to
    [fn] in a goroutine of its own, when the call returns.

    [wg.Add(end - begin)] keeps its counter in 32 bits: the counter becomes
    the [int32] of the difference, and [Add] panics when that is negative.
    The loop then starts one goroutine per index from [begin] up to [end];
    each indexes [c.items] (a panic on a negative index) and calls [Done].
    With more goroutines than the counter says, a [Done] takes the counter
    below zero, which panics.  With no goroutine at all, [wg.Wait] returns
    when the counter is zero and blocks forever otherwise. *)
Definition mapPageItems (c : CachedSlicePaged) (pg : Z) : outcome (list Z) :=
  let begin := wrap64 (pg * pageSize c) in
  let end_ := Z.min (len c) (wrap64 (begin + pageSize c)) in
  let delta := wrap64 (end_ - begin) in
  let counter := wrap32 delta in
  if bool_decide (counter < 0) then Panics "sync: negative WaitGroup counter"
  else if bool_decide (begin < end_) then
    if bool_decide (begin < 0) then Panics "index out of range"
    else if bool_decide (counter = end_ - begin) then
      Returns (seqZ begin (end_ - begin))
    else Panics "sync: negative WaitGroup counter"
  else if bool_decide (counter = 0) then Returns []
  else Blocks.

Definition map_outcome {A B} (f : A → B) (o : outcome A) : outcome B :=
  match o with
  | Returns a => Returns (f a)
  | Panics msg => Panics msg
  | Blocks => Blocks
  end.

(** [loadPage], [unloadPage] and the goroutines of [Free]. *)
Definition task_calls (c : CachedSlicePaged) (t : task) : outcome (list call) :=
  match t with
  | LoadPage pg => map_outcome (fmap Load) (mapPageItems c pg)
  | UnloadPage pg => map_outcome (fmap Unload) (mapPageItems c pg)
  | UnloadItem j =>
      if bool_decide (j < length (items c))%nat then Returns [Unload (Z.of_nat j)]
      else Panics "index out of range"
  end.

End Paged.

Arguments CachedSlicePaged E : clear implicits.
Arguments client E : clear implicits.

(** ** The coordinator of [startPreFetcher] *)

Record coordinator : Type := mkCoordinator {
  cache : pageCache;
  inflight : loader
}.

(** What the [select] of the loop can receive: a request, the closing of the
    request channel, or a page reported ready by a worker. *)
Inductive message : Type :=
  | Request (req : pageRequest)
  | Closed
  | Ready (pg : Z).

(** Whether the loop goes on after a message. *)
Inductive status : Type :=
  | Running
  | Returned
  | Panicked (msg : string).

Module Coordinator.

(** [var cache pageCache; var inflight loader]. *)
Definition init : coordinator := mkCoordinator PageCache.empty Loader.empty.

(** One iteration of the loop. *)
Definition step (st : coordinator) (m : message)
    : coordinator * list event * status :=
  match m with
  | Closed => (st, [], Returned)
  | Request req =>
      if PageCache.contains (cache st) (page req) then
        match done req with
        | Some c => (st, [SendDone c (page req)], Running)
        | None => (st, [], Running)
        end
      else
        let '(l, new) := Loader.track (inflight st) req in
        (mkCoordinator (cache st) l,
         if new : bool then [Go (LoadPage (page req))] else [],
         Running)
  | Ready pg =>
      if negb (Loader.isActive (inflight st) pg) then
        (st, [], Panicked "cache: ready page not inprogress")
      else
        let '(pc, (ep, evicted)) := PageCache.add (cache st) pg in
        let '(l, sends) := Loader.done (inflight st) pg in
        (mkCoordinator pc l,
         (if evicted : bool then [Go (UnloadPage ep)] else []) ++ sends,
         Running)
  end.

(** The loop over the messages it receives, until it returns, panics or
    the messages run out. *)
Fixpoint run (st : coordinator) (ms : list message)
    : coordinator * list event * status :=
  match ms with
  | [] => (st, [], Running)
  | m :: ms =>
      match step st m with
      | (st', evs, Running) =>
          let '(st'', evs', r) := run st' ms in (st'', evs ++ evs', r)
      | stop => stop
      end
  end.

End Coordinator.

(** ** The range iterator *)

Section Get.

(** A [CachedSlice[E]] is used through [At] only; [S] is everything a
    call of [At] or of the consumer's [yield] can read or change.
    [At] returns [Some item] for [(item, true)] and [None] for
    [(zero, false)]. *)
Context {S E : Type}.
Variable At_ : Z → proc S (option E).

(** One run of the function [Get] returns, on the consumer [yield]:
    [for ; from < to; from++ { i, ok := c.At(from);
    if !ok || !yield(i) { return } }].  The increment happens under
    [from < to], so it cannot overflow.  The closure captures [from]: a
    second run of the same function would go on from where the first one
    stopped; what is modelled is one run. *)
Equations? Get (from to : Z) (yield : E → proc S bool) : proc S unit
  by wf (Z.to_nat (to - from)) lt :=
  Get from to yield with decide (from < to) => {
    | left _ :=
        bind (At_ from) (λ r,
          match r with
          | None => ret tt
          | Some i =>
              bind (yield i) (λ more,
                if more : bool then Get (from + 1) to yield else ret tt)
          end);
    | right _ := ret tt }.
Proof. lia. Qed.

(** The indices [from, from+1, ..., to-1]. *)
Definition indices (from to : Z) : list Z := seqZ from (to - from).

(** The sequence as the specification words it, a walk over a list of
    indices in order: [At] on the first one; when it is not found the walk
    is over; the item found is yielded; when the consumer stops the walk is
    over; otherwise the walk goes on with the next index. *)
Fixpoint walk (idxs : list Z) (yield : E → proc S bool) : proc S unit :=
  match idxs with
  | [] => ret tt
  | i :: idxs =>
      bind (At_ i) (λ r,
        match r with
        | None => ret tt
        | Some item =>
            bind (yield item) (λ more,
              if more : bool then walk idxs yield else ret tt)
        end)
  end.

End Get.

(** ** [slices.Collect] over a run of an iterator

    The consumer of [slices.Collect] appends every item it is handed and
    never stops.  The items collected so far ride along with the state. *)

Definition with_items {S E A} (m : proc S A) : proc (S * list E) A :=
  λ '(s, acc), let '(s', r) := m s in ((s', acc), r).

Definition collect_yield {S E} (x : E) : proc (S * list E) bool :=
  λ '(s, acc), ((s, acc ++ [x]), Returns true).

Definition slices_Collect {S E}
    (it : (E → proc (S * list E) bool) → proc (S * list E) unit)
    : proc S (list E) :=
  λ s, match it collect_yield (s, []) with
       | ((s', acc), Returns _) => (s', Returns acc)
       | ((s', _), Panics msg) => (s', Panics msg)
       | ((s', _), Blocks) => (s', Blocks)
       end.

(** ** Sizes the arithmetic of the facade stays exact on

    Pages have a positive size, and the length of the collection plus one
    page fits Go's [int]. *)
Definition well_sized {E} (c : CachedSlicePaged E) : Prop :=
  0 < pageSize c ∧ len c + pageSize c < 2 ^ 63.

(** A page number that names a page holding at least one item. *)
Definition holds_items {E} (c : CachedSlicePaged E) (pg : Z) : Prop :=
  0 ≤ pg ∧ pg * pageSize c < len c.

Global Instance holds_items_dec {E} (c : CachedSlicePaged E) pg :
  Decision (holds_items c pg).
Proof. unfold holds_items. apply _. Defined.

(** ** Bookkeeping over a run of the coordinator *)

(** The blocking requests among the messages: slot and page. *)
Definition asked (ms : list message) : list (chan * Z) :=
  omap (λ m, match m with
             | Request r => (λ c, (c, page r)) <$> done r
             | _ => None
             end) ms.

(** The notifications among the events: slot and page. *)
Definition notified (evs : list event) : list (chan * Z) :=
  omap (λ e, match e with SendDone c pg => Some (c, pg) | _ => None end) evs.

(** The waiters recorded in the tracker: slot and page. *)
Definition waiting (l : loader) : list (chan * Z) :=
  e ← loading l; (λ c, (c, p e)) <$> reply e.

(** The pages reported ready among the messages. *)
Definition readied (ms : list message) : list Z :=
  omap (λ m, match m with Ready pg => Some pg | _ => None end) ms.

(** What the coordinator keeps true of its state: the resident pages are
    distinct and within the capacity, the tracker has one entry per page,
    and no resident page is tracked. *)
Definition coherent (st : coordinator) : Prop :=
  NoDup (pages (cache st)) ∧
  (length (pages (cache st)) ≤ 5)%nat ∧
  NoDup (Loader.tracked (inflight st)) ∧
  Forall (λ pg, pg ∉ Loader.tracked (inflight st)) (pages (cache st)).

(** ** The grid and the offset of [grid.go]

    [image.Point] and [image.Rectangle] are records of integers; of package
    [image] only [Dx] and [Dy] are used here, the width and the height of a
    rectangle.  A method that changes its receiver returns the new value;
    a division can panic. *)

Module Layout.

Record Point : Type := mkPoint { X : Z; Y : Z }.
Record Rectangle : Type := mkRectangle { Min : Point; Max : Point }.

Definition Dx (r : Rectangle) : Z := wrap64 (X (Max r) - X (Min r)).
Definition Dy (r : Rectangle) : Z := wrap64 (Y (Max r) - Y (Min r)).

(** Go's [/] on [int]. *)
Definition go_div (a b : Z) : outcome Z :=
  if bool_decide (b = 0) then Panics "integer divide by zero"
  else Returns (wrap64 (a `quot` b)).

Definition and_then {A B} (o : outcome A) (k : A → outcome B) : outcome B :=
  match o with
  | Returns a => k a
  | Panics msg => Panics msg
  | Blocks => Blocks
  end.

Record Grid : Type := mkGrid {
  area : Rectangle;
  iconSize : Point;
  padding : Z
}.

(** [Offset]: a [MxN] grid displays the items [[pos, pos + M*N)]. *)
Record Offset : Type := mkOffset {
  grid : Grid;
  pos : Z;
  limit : Z
}.

Definition NewGrid (r : Rectangle) (sz : Point) (pad : Z) : Grid := mkGrid r sz pad.

Definition Attach (g : Grid) (r : Rectangle) : Grid :=
  mkGrid r (iconSize g) (padding g).

(** [Dimensions] returns the grid dimensions, rows x columns. *)
Definition Dimensions (g : Grid) : outcome (Z * Z) :=
  and_then (go_div (wrap64 (Dy (area g) - padding g))
                   (wrap64 (Y (iconSize g) + padding g))) (λ rows,
  and_then (go_div (wrap64 (Dx (area g) - padding g))
                   (wrap64 (X (iconSize g) + padding g))) (λ cols,
  Returns (rows, cols))).

(** [Area] returns the icon area of the grid, rows * columns. *)
Definition Area (g : Grid) : outcome Z :=
  and_then (Dimensions g) (λ '(rows, cols), Returns (wrap64 (rows * cols))).

Definition NewOffset (g : Grid) (lim : Z) : Offset := mkOffset g 0 lim.

(** [Visible] returns the visible items for the current grid page. *)
Definition Visible (o : Offset) : outcome (Z * Z) :=
  and_then (Area (grid o)) (λ a,
  Returns (pos o, Z.min (limit o) (wrap64 (pos o + a)))).

(** [PageOfItem] returns the screen page of the item. *)
Definition PageOfItem (o : Offset) (i : Z) : outcome Z :=
  if bool_decide (0 ≤ i ∧ i < limit o) then
    and_then (Area (grid o)) (λ a, go_div i a)
  else Returns (-1).

Definition CurrentPage (o : Offset) : outcome Z := PageOfItem o (pos o).

(** [MoveUpRow] scrolls the page one grid row up. *)
Definition MoveUpRow (o : Offset) : outcome Offset :=
  and_then (Dimensions (grid o)) (λ '(_, cols),
  Returns (mkOffset (grid o) (Z.max 0 (wrap64 (pos o - cols))) (limit o))).

(** [MoveDownRow] scrolls the page one grid row down. *)
Definition MoveDownRow (o : Offset) : outcome Offset :=
  and_then (Dimensions (grid o)) (λ '(rows, cols),
  Returns (mkOffset (grid o)
             (Z.min (wrap64 (pos o + cols))
                    (Z.max 0 (wrap64 (wrap64 (limit o - wrap64 (rows * cols)) + cols))))
             (limit o))).

(** [GotoPage] moves view to page. *)
Definition GotoPage (o : Offset) (pg : Z) : outcome Offset :=
  and_then (Area (grid o)) (λ a,
  and_then (intCeil (limit o) a) (λ numPages,
  if bool_decide (0 ≤ pg ∧ pg < numPages) then
    and_then (Area (grid o)) (λ a',
    Returns (mkOffset (grid o) (wrap64 (pg * a')) (limit o)))
  else Returns o)).

(** The keys and menu entries of the views that move the offset. *)
Inductive move : Type :=
  | UpRow
  | DownRow
  | Goto (pg : Z).

Definition apply_move (o : Offset) (m : move) : outcome Offset :=
  match m with
  | UpRow => MoveUpRow o
  | DownRow => MoveDownRow o
  | Goto pg => GotoPage o pg
  end.

Fixpoint moves (o : Offset) (ms : list move) : outcome Offset :=
  match ms with
  | [] => Returns o
  | m :: ms => and_then (apply_move o m) (λ o', moves o' ms)
  end.

(** A grid of [rows] by [cols] icons over a collection of [limit o] items,
    of sizes on which the arithmetic is exact. *)
Definition fits (o : Offset) (rows cols : Z) : Prop :=
  Dimensions (grid o) = Returns (rows, cols) ∧
  0 < rows ∧ 0 < cols ∧ 0 ≤ limit o ∧ limit o + rows * cols < 2 ^ 62.

End Layout.

(** A window of 100 by 60 with icons of 20 by 20 and a padding of 5: two
    rows of three icons. *)
Definition small_window : Layout.Grid :=
  Layout.NewGrid
    (Layout.mkRectangle (Layout.mkPoint 0 0) (Layout.mkPoint 100 60))
    (Layout.mkPoint 20 20) 5.

(** The first two lines of [paint] in the views: the visible range, then
    the items of that range collected from the cache. *)
Definition visible_items {E} (o : Layout.Offset) : proc (client E) (list E) :=
  λ s, match Layout.Visible o with
       | Returns (from, to) =>
           slices_Collect (Get (λ i, with_items (At i)) from to) s
       | Panics msg => (s, Panics msg)
       | Blocks => (s, Blocks)
       end.

(** ** The requests of a call of [At] *)





(** * Properties *)

(** ** Slices *)

Lemma slices_Index_found (l : list Z) (x : Z) :
  x ∈ l → ∃ i : nat, slices_Index l x = Z.of_nat i ∧ l !! i = Some x
                      ∧ ∀ j y, l !! j = Some y → (j < i)%nat → y ≠ x.
Proof.
  intros Hx. unfold slices_Index.
  destruct (list_find_elem_of (λ y, y = x) l x Hx eq_refl) as [[i y] Hf].
  rewrite Hf. apply list_find_Some in Hf as (Hl & -> & Hlt).
  exists i. repeat split; [done|]. intros j z Hj Hji. by eapply Hlt.
Qed.

Lemma slices_Index_missing (l : list Z) (x : Z) :
  x ∉ l → slices_Index l x = -1.
Proof.
  intros Hx. unfold slices_Index.
  destruct (list_find _ l) as [[i y]|] eqn:Hf; [|done].
  apply list_find_Some in Hf as (Hl & -> & _).
  exfalso. apply Hx. by eapply list_elem_of_lookup_2.
Qed.

Lemma slices_Contains_true (l : list Z) (x : Z) :
  slices_Contains l x = true ↔ x ∈ l.
Proof.
  unfold slices_Contains. rewrite bool_decide_eq_true. split.
  - intros Hi. destruct (decide (x ∈ l)) as [|Hn]; [done|].
    rewrite (slices_Index_missing _ _ Hn) in Hi. lia.
  - intros Hx. destruct (slices_Index_found _ _ Hx) as (i & -> & _). lia.
Qed.

Lemma slices_Contains_false (l : list Z) (x : Z) :
  slices_Contains l x = false ↔ x ∉ l.
Proof.
  rewrite <- slices_Contains_true. destruct (slices_Contains l x); naive_solver.
Qed.

Lemma slices_Sort_perm (l : list Z) : slices_Sort l ≡ₚ l.
Proof. apply merge_sort_Permutation. Qed.

Lemma slices_Sort_sorted (l : list Z) : StronglySorted Z.le (slices_Sort l).
Proof. apply StronglySorted_merge_sort; apply _. Qed.

Lemma slices_Sort_length (l : list Z) : length (slices_Sort l) = length l.
Proof. by rewrite slices_Sort_perm. Qed.

(** Shifting down by one with [copy] and keeping the first [n] elements is
    dropping the first element, when the slice has more than [n]. *)
Lemma shift_down_take (ps : list Z) (n : nat) :
  (n < length ps)%nat →
  take n (go_copy ps (drop 1 ps)) = take n (drop 1 ps).
Proof.
  intros Hn. unfold go_copy. rewrite length_drop.
  rewrite Nat.min_r by lia.
  rewrite (take_ge (drop 1 ps)) by (rewrite length_drop; lia).
  rewrite take_app_le by (rewrite length_drop; lia). done.
Qed.

(** ** The resident-page set *)

Module PageCacheFacts.
Import PageCache.

Lemma contains_true pc x : contains pc x = true ↔ x ∈ pages pc.
Proof. apply slices_Contains_true. Qed.

Lemma contains_false pc x : contains pc x = false ↔ x ∉ pages pc.
Proof. apply slices_Contains_false. Qed.

(** The three cases of [add]. *)
Lemma add_present pc x : x ∈ pages pc → add pc x = (pc, (0, false)).
Proof. intros Hx. unfold add. by rewrite (proj2 (contains_true pc x) Hx). Qed.

Lemma add_room pc x :
  x ∉ pages pc → (length (pages pc) < 5)%nat →
  add pc x = (mkPageCache (pages pc ++ [x]), (0, false)).
Proof.
  intros Hx Hl. unfold add. rewrite (proj2 (contains_false pc x) Hx).
  rewrite bool_decide_eq_true_2; [done|]. unfold cacheSize. lia.
Qed.

Lemma add_full pc x :
  x ∉ pages pc → (5 ≤ length (pages pc))%nat →
  let ps := slices_Sort (pages pc ++ [x]) in
  add pc x =
    if bool_decide (2 ≤ slices_Index ps x)
    then (mkPageCache (take 5 (drop 1 ps)), (ps !!! 0%nat, true))
    else (mkPageCache (take 5 ps), (ps !!! 4%nat, true)).
Proof.
  intros Hx Hl ps. unfold add. rewrite (proj2 (contains_false pc x) Hx).
  rewrite bool_decide_eq_false_2 by (unfold cacheSize; lia).
  fold ps. unfold cacheSize.
  assert (Hps : length ps = S (length (pages pc))).
  { unfold ps. rewrite slices_Sort_length, length_app. simpl. lia. }
  destruct (decide (2 ≤ slices_Index ps x)) as [Hi|Hi].
  - rewrite !bool_decide_eq_true_2 by lia.
    change (Z.to_nat 5) with 5%nat. rewrite shift_down_take by lia. done.
  - rewrite !bool_decide_eq_false_2 by lia. done.
Qed.

(** Every page of the new set is the added page or was in the set. *)
Lemma add_subset pc x : pages (add pc x).1 ⊆ pages pc ++ [x].
Proof.
  destruct (decide (x ∈ pages pc)) as [Hx|Hx].
  { rewrite add_present by done. simpl. set_solver. }
  destruct (decide (length (pages pc) < 5)%nat) as [Hl|Hl].
  { by rewrite add_room. }
  rewrite add_full by (done || lia). intros y Hy.
  apply (elem_of_Permutation_proper y _ _ (slices_Sort_perm (pages pc ++ [x]))).
  revert Hy. case_bool_decide; simpl; intros Hy.
  - apply elem_of_take in Hy as (i & Hy & _).
    rewrite lookup_drop in Hy. by eapply list_elem_of_lookup_2.
  - apply elem_of_take in Hy as (i & Hy & _). by eapply list_elem_of_lookup_2.
Qed.

Lemma add_size pc x :
  (length (pages pc) ≤ 5)%nat → (length (pages (add pc x).1) ≤ 5)%nat.
Proof.
  intros Hle.
  destruct (decide (x ∈ pages pc)) as [Hx|Hx].
  { by rewrite add_present. }
  destruct (decide (length (pages pc) < 5)%nat) as [Hl|Hl].
  { rewrite add_room by done. simpl. rewrite length_app. simpl. lia. }
  rewrite add_full by (done || lia).
  case_bool_decide; simpl; rewrite length_take; lia.
Qed.

Lemma add_NoDup pc x : NoDup (pages pc) → NoDup (pages (add pc x).1).
Proof.
  intros Hnd.
  destruct (decide (x ∈ pages pc)) as [Hx|Hx].
  { by rewrite add_present. }
  assert (Hall : NoDup (pages pc ++ [x])).
  { apply NoDup_app. repeat split; [done| |apply NoDup_singleton].
    intros y Hy ->%list_elem_of_singleton. done. }
  destruct (decide (length (pages pc) < 5)%nat) as [Hl|Hl].
  { by rewrite add_room. }
  rewrite add_full by (done || lia).
  rewrite <- (slices_Sort_perm (pages pc ++ [x])) in Hall.
  case_bool_decide; simpl.
  - eapply sublist_NoDup; [exact Hall|].
    etrans; [apply sublist_take|apply sublist_drop].
  - eapply sublist_NoDup; [exact Hall|apply sublist_take].
Qed.

Lemma run_snoc ops o pc : run (ops ++ [o]) pc = apply_op (run ops pc) o.
Proof. unfold run. by rewrite foldl_app. Qed.

Lemma run_size ops : (length (pages (run ops empty)) ≤ 5)%nat.
Proof.
  induction ops as [|o ops IH] using rev_ind; [simpl; lia|].
  rewrite run_snoc. destruct o; simpl; [done|]. by apply add_size.
Qed.

Lemma run_NoDup ops : NoDup (pages (run ops empty)).
Proof.
  induction ops as [|o ops IH] using rev_ind; [apply NoDup_nil_2|].
  rewrite run_snoc. destruct o; simpl; [done|]. by apply add_NoDup.
Qed.

End PageCacheFacts.

Section ResidentSet.
Import PageCache PageCacheFacts.

(** With the set full and the new page at index 2 or above of the sorted
    six, the smallest page is returned and it is the one that leaves: the
    set becomes the other five, in ascending order. *)
Lemma add_upper_half pc x :
  x ∉ pages pc → length (pages pc) = 5%nat →
  let ps := slices_Sort (pages pc ++ [x]) in
  2 ≤ slices_Index ps x →
  ∃ small rest,
    ps = small :: rest ∧ Forall (Z.le small) rest ∧
    add pc x = (mkPageCache rest, (small, true)).
Proof.
  intros Hx Hl ps Hi.
  assert (Hps : length ps = 6%nat).
  { unfold ps. rewrite slices_Sort_length, length_app, Hl. done. }
  pose proof (slices_Sort_sorted (pages pc ++ [x])) as Hs. fold ps in Hs.
  rewrite add_full by (done || lia). fold ps.
  rewrite bool_decide_eq_true_2 by done.
  destruct ps as [|small rest]; [done|]. simpl in Hps.
  exists small, rest. apply StronglySorted_inv in Hs as [_ Hs].
  split; [done|]. split; [done|].
  simpl. rewrite drop_0, take_ge by lia. done.
Qed.

(** With the set full and the new page at index 0 or 1, the slice is cut
    after its fifth element, so the largest page is the one that leaves;
    the page returned is the fifth, which stays in the set. *)
Lemma add_lower_half pc x :
  x ∉ pages pc → length (pages pc) = 5%nat →
  let ps := slices_Sort (pages pc ++ [x]) in
  slices_Index ps x < 2 →
  ∃ front fifth big,
    ps = front ++ [fifth; big] ∧ Forall (λ y, y ≤ big) (front ++ [fifth]) ∧
    add pc x = (mkPageCache (front ++ [fifth]), (fifth, true)).
Proof.
  intros Hx Hl ps Hi.
  assert (Hps : length ps = 6%nat).
  { unfold ps. rewrite slices_Sort_length, length_app, Hl. done. }
  pose proof (slices_Sort_sorted (pages pc ++ [x])) as Hs. fold ps in Hs.
  rewrite add_full by (done || lia). fold ps.
  rewrite bool_decide_eq_false_2 by lia.
  destruct ps as [|a [|b [|c [|d [|e [|f [|??]]]]]]]; try done.
  exists [a; b; c; d], e, f. split; [done|]. split; [|done].
  apply (StronglySorted_app _ [a; b; c; d; e] [f]) in Hs as (Hle & _ & _).
  apply Forall_forall. intros y Hy. apply Hle; [done|]. by apply list_elem_of_singleton.
Qed.

(** C1. At capacity, [add] of a page that sorts below index 2 is meant to
    evict the largest page.  On the set 10, 20, 30, 40, 50 and the new
    page 5 the sorted six are 5, 10, 20, 30, 40, 50 and the new page has
    index 0; the largest page, 50, is the one cut off, but the page
    returned as evicted is 40, which is still in the set. *)
Theorem add_lower_half_returns_kept_page :
  let pc := mkPageCache [10; 20; 30; 40; 50] in
  contains pc 5 = false ∧
  slices_Sort (pages pc ++ [5]) = [5; 10; 20; 30; 40; 50] ∧
  slices_Index (slices_Sort (pages pc ++ [5])) 5 = 0 ∧
  add pc 5 = (mkPageCache [5; 10; 20; 30; 40], (40, true)) ∧
  contains (fst (add pc 5)) 40 = true ∧
  contains (fst (add pc 5)) 50 = false.
Proof. vm_compute. done. Qed.

(** C4. Starting from the empty set, after any run of [contains] and
    [add] the set holds at most [cacheSize] = 5 pages, and one more
    [add] leaves at most 5 again. *)
Theorem resident_set_size_bounded (ops : list op) :
  Z.of_nat (length (pages (run ops empty))) ≤ cacheSize ∧
  ∀ page, Z.of_nat (length (pages (add (run ops empty) page).1)) ≤ cacheSize.
Proof.
  unfold cacheSize. split.
  - pose proof (run_size ops). lia.
  - intros page. pose proof (add_size (run ops empty) page (run_size ops)). lia.
Qed.

(** C10. Starting from the empty set, the pages of the set are pairwise
    distinct after any run of [contains] and [add]; an [add] of a page
    already present leaves the set as it is, and an [add] of another page
    yields a set of distinct pages, each of which is the new page or was
    in the set before. *)
Theorem resident_set_distinct (ops : list op) :
  NoDup (pages (run ops empty)) ∧
  ∀ page,
    let pc := run ops empty in
    NoDup (pages (add pc page).1) ∧
    (if contains pc page then (add pc page).1 = pc
     else (page ∉ pages pc) ∧ (pages (add pc page).1 ⊆ pages pc ++ [page])).
Proof.
  split; [apply run_NoDup|]. intros page pc. split.
  - apply add_NoDup, run_NoDup.
  - destruct (contains pc page) eqn:Hc.
    + apply contains_true in Hc. by rewrite add_present.
    + apply contains_false in Hc. split; [done|apply add_subset].
Qed.

End ResidentSet.

(** ** The in-flight tracker *)

(** Overwriting element [i] by the last one and dropping the last one
    removes element [i] and keeps the others. *)
Lemma swap_remove_perm {A} `{!Inhabited A} (l : list A) (i : nat) (e : A) :
  l !! i = Some e →
  e :: take (length l - 1) (<[i := l !!! (length l - 1)%nat]> l) ≡ₚ l.
Proof.
  intros Hi. pose proof (lookup_lt_Some _ _ _ Hi) as Hlt.
  destruct (lookup_lt_is_Some_2 l (length l - 1)) as [z Hz]; [lia|].
  rewrite (list_lookup_total_correct _ _ _ Hz).
  assert (Hl : l = take (length l - 1) l ++ [z]).
  { rewrite <- (take_drop_middle l (length l - 1) z Hz) at 1.
    by rewrite (drop_ge l (S _)) by lia. }
  destruct (decide (i = length l - 1)%nat) as [->|Hne].
  - rewrite list_insert_id by done.
    assert (e = z) as -> by congruence.
    rewrite Hl at 3. by rewrite Permutation_cons_append.
  - rewrite take_insert_lt by lia.
    assert (Ht : take (length l - 1) l !! i = Some e).
    { rewrite lookup_take_lt by lia. done. }
    rewrite Hl at 3. generalize dependent (take (length l - 1) l).
    intros t _ Ht. rewrite insert_take_drop by (by eapply lookup_lt_Some).
    rewrite <- (take_drop_middle t i e Ht) at 3.
    rewrite <- !app_assoc. simpl.
    rewrite <- (Permutation_cons_append (drop (S i) t) z).
    apply Permutation_middle.
Qed.

Module LoaderFacts.

Lemma index_of_Some l pg i e :
  Loader.index_of l pg = Some (i, e) → loading l !! i = Some e ∧ p e = pg.
Proof. intros (? & ? & _)%list_find_Some. done. Qed.

Lemma isActive_true l pg : Loader.isActive l pg = true ↔ pg ∈ Loader.tracked l.
Proof.
  unfold Loader.isActive, Loader.tracked, Loader.index_of.
  rewrite bool_decide_eq_true. split.
  - intros [[i e] (Hi & <- & _)%list_find_Some].
    apply list_elem_of_fmap. exists e. split; [done|].
    by eapply list_elem_of_lookup_2.
  - intros (e & -> & He)%list_elem_of_fmap.
    by apply (list_find_elem_of (λ this, p this = p e) _ e).
Qed.

Lemma isActive_false l pg : Loader.isActive l pg = false ↔ pg ∉ Loader.tracked l.
Proof.
  rewrite <- isActive_true. destruct (Loader.isActive l pg); naive_solver.
Qed.

Lemma isActive_waiters l pg :
  Loader.isActive l pg = bool_decide (is_Some (Loader.waiters l pg)).
Proof.
  unfold Loader.isActive, Loader.waiters. apply bool_decide_ext.
  by rewrite fmap_is_Some.
Qed.

(** With one entry per page, the entry found for a page is the entry. *)
Lemma entry_unique l e :
  NoDup (Loader.tracked l) → e ∈ loading l →
  Loader.waiters l (p e) = Some (reply e).
Proof.
  intros Hnd He. unfold Loader.waiters, Loader.index_of.
  destruct (list_find_elem_of (λ this, p this = p e) _ e He eq_refl)
    as [[i e'] Hf].
  rewrite Hf. simpl. apply list_find_Some in Hf as (Hi & Hp & _).
  apply list_elem_of_lookup in He as [j Hj].
  assert (i = j) as ->.
  { eapply NoDup_lookup; [exact Hnd| |].
    - unfold Loader.tracked. rewrite list_lookup_fmap, Hi. simpl. by rewrite Hp.
    - unfold Loader.tracked. by rewrite list_lookup_fmap, Hj. }
  simpl. congruence.
Qed.

(** Replacing an entry by one for the same page changes no search. *)
Lemma find_insert_other (l : list inProgress) i e e' q :
  l !! i = Some e → p e' = p e → q ≠ p e →
  list_find (λ this, p this = q) (<[i := e']> l)
  = list_find (λ this, p this = q) l.
Proof.
  intros Hi Hp Hq.
  destruct (list_find (λ this, p this = q) l) as [[j y]|] eqn:Hf.
  - apply list_find_Some in Hf as (Hj & Hy & Hlt).
    assert (i ≠ j) by (intros ->; congruence).
    apply list_find_Some. split_and!; [by rewrite list_lookup_insert_ne|done|].
    intros k z Hk Hkj. destruct (decide (k = i)) as [->|Hki].
    + rewrite list_lookup_insert_eq in Hk by (by eapply lookup_lt_Some).
      congruence.
    + rewrite list_lookup_insert_ne in Hk by done. by eapply Hlt.
  - apply list_find_None. apply list_find_None in Hf.
    apply Forall_insert; [done|]. congruence.
Qed.

Lemma find_insert_same (l : list inProgress) i e e' :
  list_find (λ this, p this = p e) l = Some (i, e) → p e' = p e →
  list_find (λ this, p this = p e) (<[i := e']> l) = Some (i, e').
Proof.
  intros (Hi & _ & Hlt)%list_find_Some Hp.
  apply list_find_Some. split_and!; [|done|].
  - apply list_lookup_insert_eq. by eapply lookup_lt_Some.
  - intros k z Hk Hki. rewrite list_lookup_insert_ne in Hk by lia.
    by eapply Hlt.
Qed.

(** [track]: the pages tracked afterwards. *)
Lemma track_tracked l req :
  Loader.tracked (Loader.track l req).1 =
    if Loader.isActive l (page req) then Loader.tracked l
    else Loader.tracked l ++ [page req].
Proof.
  unfold Loader.track, Loader.isActive, Loader.tracked.
  destruct (Loader.index_of l (page req)) as [[i e]|] eqn:Hf.
  - rewrite bool_decide_eq_true_2 by eauto.
    apply index_of_Some in Hf as [Hi Hp]. simpl.
    rewrite list_fmap_insert. simpl. apply list_insert_id.
    by rewrite list_lookup_fmap, Hi.
  - rewrite bool_decide_eq_false_2 by (by intros [? ?]).
    simpl. by rewrite fmap_app.
Qed.

Lemma track_NoDup l req :
  NoDup (Loader.tracked l) → NoDup (Loader.tracked (Loader.track l req).1).
Proof.
  intros Hnd. rewrite track_tracked.
  destruct (Loader.isActive l (page req)) eqn:Ha; [done|].
  apply isActive_false in Ha. apply NoDup_app. split_and!; [done| |apply NoDup_singleton].
  intros y Hy ->%list_elem_of_singleton. done.
Qed.

(** [done]: the entry found leaves and the others stay. *)
Lemma done_perm l pg i e :
  Loader.index_of l pg = Some (i, e) →
  e :: loading (Loader.done l pg).1 ≡ₚ loading l.
Proof.
  intros Hf. unfold Loader.done. rewrite Hf. simpl.
  apply index_of_Some in Hf as [Hi _]. by apply swap_remove_perm.
Qed.

Lemma done_untracked l pg :
  Loader.isActive l pg = false → Loader.done l pg = (l, []).
Proof.
  unfold Loader.isActive, Loader.done.
  rewrite bool_decide_eq_false. intros Hn.
  destruct (Loader.index_of l pg) as [[i e]|]; [|done].
  exfalso. apply Hn. eauto.
Qed.

Lemma done_NoDup l pg :
  NoDup (Loader.tracked l) → NoDup (Loader.tracked (Loader.done l pg).1).
Proof.
  intros Hnd. destruct (Loader.index_of l pg) as [[i e]|] eqn:Hf.
  - pose proof (done_perm _ _ _ _ Hf) as Hp.
    unfold Loader.tracked in *. rewrite <- Hp in Hnd.
    rewrite fmap_cons in Hnd. by apply NoDup_cons in Hnd as [_ ?].
  - unfold Loader.done. by rewrite Hf.
Qed.

Lemma tracker_run_snoc ops o l :
  Loader.run (ops ++ [o]) l = Loader.apply_op (Loader.run ops l) o.
Proof. unfold Loader.run. by rewrite foldl_app. Qed.

Lemma tracker_run_NoDup ops : NoDup (Loader.tracked (Loader.run ops Loader.empty)).
Proof.
  induction ops as [|o ops IH] using rev_ind; [apply NoDup_nil_2|].
  rewrite tracker_run_snoc. destruct o; simpl; [by apply track_NoDup|by apply done_NoDup].
Qed.

End LoaderFacts.

Lemma occurrences_fmap {A B} `{EqDecision A, EqDecision B} (f : A → B)
    `{!Inj (=) (=) f} (x : A) (l : list A) :
  occurrences (f x) (f <$> l) = occurrences x l.
Proof.
  unfold occurrences. induction l as [|y l IH]; [done|].
  rewrite fmap_cons, !filter_cons.
  destruct (decide (y = x)) as [->|Hne].
  - rewrite decide_True by done. simpl. by rewrite IH.
  - rewrite decide_False by (intros ?%(inj f); done). done.
Qed.

Lemma occurrences_absent {A} `{EqDecision A} (x : A) (l : list A) :
  x ∉ l → occurrences x l = 0%nat.
Proof.
  unfold occurrences. induction l as [|y l IH]; [done|].
  intros [Hne Hx]%not_elem_of_cons. rewrite filter_cons.
  rewrite decide_False by done. by apply IH.
Qed.

Lemma occurrences_NoDup {A} `{EqDecision A} (x : A) (l : list A) :
  NoDup l → x ∈ l → occurrences x l = 1%nat.
Proof.
  induction 1 as [|y l Hy Hnd IH]; [by intros ?%elem_of_nil|].
  intros [->|Hx]%elem_of_cons.
  - pose proof (occurrences_absent y l Hy) as H0. unfold occurrences in *.
    rewrite filter_cons, decide_True by done. simpl. by rewrite H0.
  - specialize (IH Hx). unfold occurrences in *.
    rewrite filter_cons, decide_False by (by intros ->). done.
Qed.

Global Instance SendDone_inj pg : Inj (=) (=) (λ c, SendDone c pg).
Proof. by intros c1 c2 [= ->]. Qed.

Section Tracker.
Import LoaderFacts.

Lemma waiters_None l pg : Loader.waiters l pg = None ↔ pg ∉ Loader.tracked l.
Proof.
  rewrite <- isActive_false, isActive_waiters, bool_decide_eq_false.
  by rewrite eq_None_not_Some.
Qed.

Lemma waiters_Some l pg ws :
  Loader.waiters l pg = Some ws →
  ∃ i e, Loader.index_of l pg = Some (i, e) ∧ e ∈ loading l ∧ p e = pg ∧ reply e = ws.
Proof.
  unfold Loader.waiters. intros ([i e] & Hf & Hw)%fmap_Some. simpl in Hw.
  exists i, e. pose proof (index_of_Some _ _ _ _ Hf) as [Hi Hp].
  split_and!; [done| |done|done]. by eapply list_elem_of_lookup_2.
Qed.

(** C5. [track] returns true exactly when the page has no entry.  Then it
    appends an entry whose waiter list is the request's slot, or empty for
    a request without one.  When the page has an entry, the pages tracked
    stay as they are, the slot (if any) is appended to the waiters of that
    entry, the waiters of the other pages stay, and false is returned.
    Either way the page is tracked afterwards, and from the empty tracker
    no run of [track] and [done] makes two entries for one page. *)
Theorem track_one_entry_per_page (l : loader) (req : pageRequest) :
  let l' := (Loader.track l req).1 in
  (Loader.track l req).2 = negb (Loader.isActive l (page req)) ∧
  Loader.isActive l' (page req) = true ∧
  (if Loader.isActive l (page req) then
     Loader.tracked l' = Loader.tracked l ∧
     Loader.waiters l' (page req)
       = (λ ws, ws ++ option_list (done req)) <$> Loader.waiters l (page req) ∧
     (∀ q, q ≠ page req → Loader.waiters l' q = Loader.waiters l q)
   else
     loading l' = loading l ++ [mkInProgress (page req) (option_list (done req))]) ∧
  (∀ ops, NoDup (Loader.tracked (Loader.run ops Loader.empty))).
Proof.
  intros l'. split_and!.
  - unfold Loader.track, Loader.isActive.
    destruct (Loader.index_of l (page req)) as [[i e]|] eqn:Hf.
    + by rewrite bool_decide_eq_true_2 by eauto.
    + by rewrite bool_decide_eq_false_2 by (by intros [? ?]).
  - apply isActive_true. unfold l'. rewrite track_tracked.
    destruct (Loader.isActive l (page req)) eqn:Ha.
    + by apply isActive_true.
    + set_solver.
  - pose proof (track_tracked l req) as Ht. fold l' in Ht.
    destruct (Loader.isActive l (page req)) eqn:Ha.
    + split; [done|]. unfold l', Loader.track, Loader.waiters in *.
      unfold Loader.isActive in Ha. apply bool_decide_eq_true in Ha as [[i e] Hf].
      rewrite Hf. simpl.
      pose proof (index_of_Some _ _ _ _ Hf) as [Hi Hp].
      unfold Loader.index_of in *. simpl. split.
      * clear Ht. rewrite <- Hp in Hf |- *.
        rewrite (find_insert_same _ i e (mkInProgress (p e) _) Hf eq_refl). simpl.
        destruct (done req); simpl; by rewrite ?app_nil_r.
      * intros q Hq. rewrite (find_insert_other _ i e); [done..|congruence].
    + unfold l', Loader.track. unfold Loader.isActive in Ha.
      apply bool_decide_eq_false in Ha.
      destruct (Loader.index_of l (page req)) as [[i e]|]; [exfalso; eauto|].
      simpl. by destruct (done req).
  - apply tracker_run_NoDup.
Qed.

(** C7. With one entry per page and an entry for [pg] whose waiters are
    [ws], [done] sends [pg] once to each waiter recorded, in order, and
    removes the entry: the page is not active afterwards, the other
    entries and their waiters stay, and when the waiters are distinct
    channels each of them receives exactly one notification. *)
Theorem done_notifies_and_removes (l : loader) (pg : Z) (ws : list chan) :
  NoDup (Loader.tracked l) →
  Loader.waiters l pg = Some ws →
  let l' := (Loader.done l pg).1 in
  let sends := (Loader.done l pg).2 in
  sends = (λ c, SendDone c pg) <$> ws ∧
  Loader.isActive l' pg = false ∧
  Loader.tracked l ≡ₚ pg :: Loader.tracked l' ∧
  (∀ q, q ≠ pg → Loader.waiters l' q = Loader.waiters l q) ∧
  (∀ c, occurrences (SendDone c pg) sends = occurrences c ws) ∧
  (NoDup ws → ∀ c, c ∈ ws → occurrences (SendDone c pg) sends = 1%nat).
Proof.
  intros Hnd Hw l' sends.
  destruct (waiters_Some _ _ _ Hw) as (i & e & Hf & He & Hp & Hr).
  pose proof (done_perm _ _ _ _ Hf) as Hperm. fold l' in Hperm.
  assert (Hs : sends = (λ c, SendDone c pg) <$> ws).
  { unfold sends, Loader.done. rewrite Hf. simpl. by rewrite Hr. }
  assert (Ht : Loader.tracked l ≡ₚ pg :: Loader.tracked l').
  { unfold Loader.tracked. rewrite <- Hperm, fmap_cons. by rewrite Hp. }
  assert (Hnd' : NoDup (pg :: Loader.tracked l')) by by rewrite <- Ht.
  apply NoDup_cons in Hnd' as [Hpg Hnd'].
  split_and!; [done| |done| | |].
  - by apply isActive_false.
  - intros q Hq. destruct (Loader.waiters l q) as [w|] eqn:Hwq.
    + destruct (waiters_Some _ _ _ Hwq) as (j & e' & _ & He' & Hp' & Hr').
      rewrite <- Hperm in He'. apply elem_of_cons in He' as [->|He'].
      { congruence. }
      rewrite <- Hp', <- Hr'. by apply entry_unique.
    + apply waiters_None. apply waiters_None in Hwq.
      intros Hin. apply Hwq. rewrite Ht. by apply elem_of_cons; right.
  - intros c. rewrite Hs. apply (occurrences_fmap (λ c, SendDone c pg)).
  - intros Hws c Hc. rewrite Hs.
    rewrite (occurrences_fmap (λ c, SendDone c pg)). by apply occurrences_NoDup.
Qed.

Lemma done_notifies_and_removes_witness :
  let l := mkLoader [mkInProgress 3 [7%nat; 9%nat]; mkInProgress 4 []] in
  NoDup (Loader.tracked l) ∧
  Loader.waiters l 3 = Some [7%nat; 9%nat] ∧
  (Loader.done l 3).2 = [SendDone 7%nat 3; SendDone 9%nat 3] ∧
  Loader.isActive (Loader.done l 3).1 3 = false.
Proof.
  intros l.
  assert (Hnd : NoDup (Loader.tracked l)).
  { apply (bool_decide_unpack _). vm_compute. exact I. }
  assert (Hw : Loader.waiters l 3 = Some [7%nat; 9%nat]) by reflexivity.
  destruct (done_notifies_and_removes l 3 _ Hnd Hw) as (Hs & Ha & _).
  split_and!; [exact Hnd|exact Hw|exact Hs|exact Ha].
Defined.

End Tracker.

(** ** The coordinator *)

Section CoordinatorFacts.
Import LoaderFacts.

(** C3, as the code has it.  On the tracker holding page 1 only, [done] of
    page 2, which has no entry, returns with the tracker as it was and
    nothing sent: it is a no-op, not a failure. *)
Lemma done_untracked_returns_normally :
  let l := mkLoader [mkInProgress 1 [7%nat]] in
  Loader.isActive l 2 = false ∧ Loader.done l 2 = (l, []).
Proof. vm_compute. done. Qed.

(** C3, amended.  [done] of a page without an entry leaves the tracker
    unchanged and sends nothing.  The failure for such a page is in the
    coordinator: on a ready page that is not active it panics before
    [add] and [done] are called, with its state unchanged. *)
Theorem done_untracked_noop_ready_panics (l : loader) (pg : Z) :
  Loader.isActive l pg = false →
  Loader.done l pg = (l, []) ∧
  ∀ pc, ∃ msg,
    Coordinator.step (mkCoordinator pc l) (Ready pg)
    = (mkCoordinator pc l, [], Panicked msg).
Proof.
  intros Ha. split; [by apply done_untracked|].
  intros pc. eexists. unfold Coordinator.step. simpl. by rewrite Ha.
Qed.

Lemma done_untracked_noop_ready_panics_witness :
  Loader.isActive Loader.empty 3 = false ∧
  Loader.done Loader.empty 3 = (Loader.empty, []) ∧
  ∃ msg, Coordinator.step Coordinator.init (Ready 3)
         = (Coordinator.init, [], Panicked msg).
Proof.
  assert (Ha : Loader.isActive Loader.empty 3 = false) by reflexivity.
  destruct (done_untracked_noop_ready_panics Loader.empty 3 Ha) as [Hd Hp].
  split_and!; [exact Ha|exact Hd|exact (Hp PageCache.empty)].
Defined.

(** A run of requests, all for resident pages, changes nothing and
    starts nothing. *)
Lemma requests_for_resident_pages st (reqs : list pageRequest) :
  Forall (λ r, PageCache.contains (cache st) (page r) = true) reqs →
  ∃ evs, Coordinator.run st (Request <$> reqs) = (st, evs, Running)
         ∧ spawned evs = [].
Proof.
  induction 1 as [|r reqs Hr _ (evs & IH & Hs)]; [by exists []|].
  rewrite fmap_cons. cbn [Coordinator.run Coordinator.step]. rewrite Hr.
  destruct (done r) as [c|]; rewrite IH.
  - by exists (SendDone c (page r) :: evs).
  - by exists evs.
Qed.

End CoordinatorFacts.

(** ** The facade *)

Global Instance UnloadItem_inj : Inj (=) (=) UnloadItem.
Proof. by intros j1 j2 [= ->]. Qed.

Section Facade.
Context {E : Type}.
Implicit Types (c : CachedSlicePaged E) (s : client E).

(** A loop that only emits events appends them in order. *)
Lemma for_each_emit {A} (f : A → event) (l : list A) s :
  for_each (λ x, emit (f x)) l s
  = (mkClient (self s) (fresh s) (emitted s ++ (f <$> l)), Returns tt).
Proof.
  revert s. induction l as [|x l IH]; intros s; simpl.
  - unfold ret. rewrite app_nil_r. by destruct s.
  - unfold bind, emit at 1. rewrite IH. simpl. by rewrite <- app_assoc.
Qed.

(** The part of C2 that holds: at or beyond the end, [At] reports not
    found and touches nothing. *)
Lemma At_beyond_end s pos :
  len (self s) ≤ pos → At pos s = (s, Returns None).
Proof. intros Hp. unfold At. by rewrite bool_decide_eq_true_2. Qed.

Lemma occurrences_seq (j n : nat) :
  occurrences j (seq 0 n) = if bool_decide (j < n)%nat then 1%nat else 0%nat.
Proof.
  case_bool_decide.
  - apply occurrences_NoDup; [apply NoDup_seq|]. apply elem_of_seq. lia.
  - apply occurrences_absent. rewrite elem_of_seq. lia.
Qed.

(** C8. [Free] on a cache whose coordinator runs closes the request
    channel and then starts one goroutine per item of the collection,
    each of which calls [Unload] on its item once: every index below the
    length is unloaded by exactly one goroutine and no other index is.
    The coordinator returns on the closed channel whatever its resident
    set and tracker hold, and starts nothing; [Free] does not read them. *)
Theorem Free_unloads_every_item_once
    (nm : string) (its : list E) (psz : Z) (ch fr : chan) (evs0 : list event)
    (st : coordinator) :
  let c := NewCachedSlicePaged nm its psz ch in
  let tasks := UnloadItem <$> seq 0 (length its) in
  Free (mkClient c fr evs0)
  = (mkClient (mkCachedSlicePaged nm its psz None) fr
       (evs0 ++ CloseFetch :: (Go <$> tasks)), Returns tt) ∧
  spawned (CloseFetch :: (Go <$> tasks)) = tasks ∧
  Coordinator.step st Closed = (st, [], Returned) ∧
  ∀ j : nat,
    occurrences (UnloadItem j) tasks
      = (if bool_decide (j < length its)%nat then 1%nat else 0%nat) ∧
    task_calls c (UnloadItem j)
      = (if bool_decide (j < length its)%nat then Returns [Unload (Z.of_nat j)]
         else Panics "index out of range").
Proof.
  intros c tasks. split_and!.
  - unfold Free, bind, stopPreFetcher. simpl.
    rewrite (for_each_emit (λ j, Go (UnloadItem j))). simpl.
    unfold tasks. rewrite <- list_fmap_compose, <- app_assoc. done.
  - unfold spawned, tasks. simpl. induction (seq 0 (length its)); [done|].
    simpl. by f_equal.
  - done.
  - intros j. split; [|done].
    unfold tasks. rewrite (occurrences_fmap UnloadItem). apply occurrences_seq.
Qed.

(** C2. On a cache of four items with pages of two, [At] of index -1
    computes page 0 (the division truncates towards zero), requests page
    1 ahead, requests page 0 and waits for it, and then panics on
    [c.items[-1]]: it neither reports not found nor leaves things
    untouched.  A coordinator that has nothing resident starts the loads
    of both pages on these requests. *)
Theorem At_negative_index_requests_and_panics (a b c d : E) :
  let cache0 := NewCachedSlicePaged "icons" [a; b; c; d] 2 0%nat in
  let requests := [mkRequest 1 None; mkRequest 0 (Some 1%nat)] in
  At (-1) (mkClient cache0 1%nat [])
  = (mkClient cache0 2%nat ((SendFetch <$> requests) ++ [RecvDone 1%nat]),
     Panics "index out of range") ∧
  spawned (Coordinator.run Coordinator.init (Request <$> requests)).1.2
  = [LoadPage 1; LoadPage 0] ∧
  task_calls cache0 (LoadPage 0) = Returns [Load 0; Load 1].
Proof. intros cache0 requests. split_and!; vm_compute; done. Qed.

End Facade.

(** ** The range iterator *)

Section GetFacts.
Context {S E : Type}.
Variable At_ : Z → proc S (option E).

Lemma Get_body (from to : Z) (yield : E → proc S bool) :
  Get At_ from to yield =
    if decide (from < to) then
      bind (At_ from) (λ r,
        match r with
        | None => ret tt
        | Some i =>
            bind (yield i) (λ more,
              if more : bool then Get At_ (from + 1) to yield else ret tt)
        end)
    else ret tt.
Proof. rewrite Get_equation_1. by destruct (decide (from < to)). Qed.

Lemma Get_is_walk (n : nat) :
  ∀ from to yield, Z.to_nat (to - from) = n →
    Get At_ from to yield = walk At_ (indices from to) yield.
Proof.
  unfold indices. induction n as [|n IH]; intros from to yield Hn.
  - rewrite Get_body, decide_False by lia. by rewrite seqZ_nil by lia.
  - rewrite Get_body, decide_True by lia.
    rewrite seqZ_cons by lia. simpl.
    replace (Z.pred (to - from)) with (to - Z.succ from) by lia.
    rewrite <- (IH (Z.succ from) to yield) by lia.
    by replace (Z.succ from) with (from + 1) by lia.
Qed.

(** C9. A run of the iterator [Get] returns is the walk over the indices
    from, from+1, ..., to-1 in order: [At] on the index, the end at the
    first index not found, the item found handed to the consumer, the end
    when the consumer stops.  When [to] is not above [from] the run
    returns at once, the state untouched: [At] is not called and nothing
    is yielded. *)
Theorem Get_walks_the_range (from to : Z) (yield : E → proc S bool) (s : S) :
  Get At_ from to yield s = walk At_ (seqZ from (to - from)) yield s ∧
  ∀ n : nat, Get At_ from (from - Z.of_nat n) yield s = (s, Returns tt).
Proof.
  split.
  - by rewrite (Get_is_walk _ from to yield eq_refl).
  - intros n. rewrite Get_body, decide_False by lia. done.
Qed.

End GetFacts.

(** The iterator on a slice that records the calls made on it: the state is
    the record, [At] notes the index and [yield] the item; the consumer
    stops at the item 30. *)
Example Get_recorded_run :
  let slice := [10; 20; 30; 40] in
  let At_ := λ (i : Z) (log : list (Z + Z)),
    (log ++ [inl i],
     Returns (if bool_decide (0 ≤ i) then slice !! Z.to_nat i else None)) in
  let yield := λ (x : Z) (log : list (Z + Z)),
    (log ++ [inr x], Returns (bool_decide (x ≠ 30))) in
  Get At_ 0 4 yield [] = ([inl 0; inr 10; inl 1; inr 20; inl 2; inr 30], Returns tt) ∧
  Get At_ 2 9 (λ x log, (log ++ [inr x], Returns true)) []
    = ([inl 2; inr 30; inl 3; inr 40; inl 4], Returns tt) ∧
  Get At_ 3 3 yield [] = ([], Returns tt).
Proof.
  intros slice At_ yield.
  rewrite !(Get_is_walk _ _ _ _ _ eq_refl). done.
Qed.

(** ** Runs of the model on small inputs *)

(** [At 2] on four items with pages of two: page 1, so page 0 is requested
    ahead, page 2 does not exist, page 1 is requested and waited for. *)
Example At_in_range_run :
  let cache0 := NewCachedSlicePaged "icons" ["a"; "b"; "c"; "d"] 2 0%nat in
  At 2 (mkClient cache0 1%nat [])
  = (mkClient cache0 2%nat
       [SendFetch (mkRequest 0 None); SendFetch (mkRequest 1 (Some 1%nat));
        RecvDone 1%nat],
     Returns (Some "c")) ∧
  At 4 (mkClient cache0 1%nat []) = (mkClient cache0 1%nat [], Returns None).
Proof. vm_compute. done. Qed.

(** Two requests for page 0 share one load; the page coming ready makes it
    resident and notifies both. *)
Example coordinator_joins_requests :
  Coordinator.run Coordinator.init
    [Request (mkRequest 0 (Some 1%nat)); Request (mkRequest 0 (Some 2%nat));
     Request (mkRequest 1 None); Ready 0; Request (mkRequest 0 (Some 3%nat));
     Closed]
  = (mkCoordinator (mkPageCache [0]) (mkLoader [mkInProgress 1 []]),
     [Go (LoadPage 0); Go (LoadPage 1); SendDone 1%nat 0; SendDone 2%nat 0;
      SendDone 3%nat 0],
     Returned).
Proof. vm_compute. done. Qed.

(** Pages 0 to 6 coming ready in order: the sixth and seventh each evict the
    smallest page. *)
Example sliding_window :
  PageCache.run (PageCache.Add <$> [0; 1; 2; 3; 4; 5; 6]) PageCache.empty
  = mkPageCache [2; 3; 4; 5; 6] ∧
  PageCache.add (mkPageCache [0; 1; 2; 3; 4]) 5 = (mkPageCache [1; 2; 3; 4; 5], (0, true)).
Proof. vm_compute. done. Qed.

(** * Further properties of the cache *)

(** ** Integer helpers *)

Lemma wrap64_id (z : Z) : - 2 ^ 63 ≤ z < 2 ^ 63 → wrap64 z = z.
Proof. intros H. unfold wrap64. rewrite Z.mod_small by lia. lia. Qed.

Lemma quot_rem_pos (a b : Z) :
  0 < b →
  a = b * (a `quot` b) + a `rem` b ∧ - b < a `rem` b < b ∧
  (0 ≤ a → 0 ≤ a `rem` b) ∧ (a ≤ 0 → a `rem` b ≤ 0).
Proof.
  intros Hb. split; [apply Z.quot_rem'|].
  destruct (Z.lt_trichotomy a 0) as [Hn|[->|Hp]].
  - pose proof (Z.rem_bound_pos (- a) b ltac:(lia) Hb) as Hr.
    rewrite Z.rem_opp_l in Hr by lia. lia.
  - rewrite Z.rem_0_l by lia. lia.
  - pose proof (Z.rem_bound_pos a b ltac:(lia) Hb). lia.
Qed.

Lemma intCeil_bounds (a b : Z) :
  0 < b → - 2 ^ 63 ≤ a < 2 ^ 63 →
  ∃ n, intCeil a b = Returns n ∧ (n - 1) * b < a ≤ n * b.
Proof.
  intros Hb Ha. unfold intCeil. rewrite bool_decide_eq_false_2 by lia.
  destruct (quot_rem_pos a b Hb) as (Hq & Hr & Hpos & Hneg).
  assert (Hw : wrap64 (a `quot` b) = a `quot` b) by (apply wrap64_id; nia).
  rewrite Hw. eexists. split; [done|].
  case_bool_decide.
  - rewrite wrap64_id by nia. nia.
  - nia.
Qed.

(** X1. For a positive divisor and a dividend in the range of [int],
    [intCeil] returns the ceiling of a/b: a ≤ n*b, and n is the least
    such integer. *)
Theorem intCeil_is_ceiling (a b : Z) :
  0 < b → - 2 ^ 63 ≤ a < 2 ^ 63 →
  ∃ n, intCeil a b = Returns n ∧ a ≤ n * b ∧ ∀ m, a ≤ m * b → n ≤ m.
Proof.
  intros Hb Ha. destruct (intCeil_bounds a b Hb Ha) as (n & Hn & Hlo & Hhi).
  exists n. split_and!; [done..|]. intros m Hm. nia.
Qed.

Lemma intCeil_is_ceiling_witness :
  0 < 2 ∧ - 2 ^ 63 ≤ 7 < 2 ^ 63 ∧
  ∃ n, intCeil 7 2 = Returns n ∧ 7 ≤ n * 2 ∧ ∀ m, 7 ≤ m * 2 → n ≤ m.
Proof.
  split; [lia|]. split; [lia|]. apply (intCeil_is_ceiling 7 2); lia.
Defined.

(** ** Requests of the facade *)

Section FacadeRequests.
Context {E : Type}.
Implicit Types (c : CachedSlicePaged E) (s : client E).

Lemma len_nonneg c : 0 ≤ len c.
Proof. unfold len. lia. Qed.

Lemma numPages_bounds c :
  well_sized c →
  ∃ n, numPages c = Returns n ∧ (n - 1) * pageSize c < len c ≤ n * pageSize c.
Proof.
  intros [Hps Hlen]. pose proof (len_nonneg c). apply intCeil_bounds; lia.
Qed.

Lemma valid_page_holds_items s pg :
  well_sized (self s) →
  valid_page pg s = (s, Returns (bool_decide (holds_items (self s) pg))).
Proof.
  intros Hws. destruct (numPages_bounds _ Hws) as (n & Hn & Hlo & Hhi).
  destruct Hws as [Hps _]. unfold valid_page, holds_items. rewrite Hn.
  case_bool_decide as H0.
  - do 2 f_equal. apply bool_decide_ext. nia.
  - do 2 f_equal. symmetry. apply bool_decide_eq_false_2. lia.
Qed.

Lemma fetchPageNow_sends s pg ch :
  well_sized (self s) → fetchC (self s) = Some ch →
  fetchPageNow pg s =
    (if bool_decide (holds_items (self s) pg) then
       mkClient (self s) (S (fresh s))
         (emitted s ++ [SendFetch (mkRequest pg (Some (fresh s))); RecvDone (fresh s)])
     else s, Returns tt).
Proof.
  intros Hws Hch. unfold fetchPageNow, bind.
  rewrite valid_page_holds_items by done.
  case_bool_decide; [|done].
  unfold make_chan, send_fetch. simpl. rewrite Hch.
  unfold emit. simpl. by rewrite <- app_assoc.
Qed.

Lemma fetchPagesLater_sends s pgs ch :
  well_sized (self s) → fetchC (self s) = Some ch →
  fetchPagesLater pgs s =
    (mkClient (self s) (fresh s)
       (emitted s ++
        ((λ q, SendFetch (mkRequest q None)) <$> filter (holds_items (self s)) pgs)),
     Returns tt).
Proof.
  intros Hws Hch. unfold fetchPagesLater.
  revert s Hws Hch. induction pgs as [|pg pgs IH]; intros s Hws Hch.
  - simpl. unfold ret. rewrite app_nil_r. by destruct s.
  - cbn [for_each]. unfold bind at 1. unfold bind at 1.
    rewrite valid_page_holds_items by done. rewrite filter_cons.
    case_bool_decide as Hv.
    + rewrite decide_True by done. unfold send_fetch. rewrite Hch. unfold emit.
      rewrite IH by done. simpl. by rewrite <- app_assoc.
    + rewrite decide_False by done. unfold ret. by rewrite IH.
Qed.

(** X2. With the request channel open, [fetchPageNow] sends one blocking
    request on a fresh channel and waits on it when the page holds an item,
    and does nothing for any other page number; [fetchPagesLater] sends one
    request without a slot for each of its pages that holds an item, in
    order, and skips the others.  Neither panics or blocks. *)
Theorem requests_only_for_pages_with_items s pg pgs ch :
  well_sized (self s) → fetchC (self s) = Some ch →
  fetchPageNow pg s =
    (if bool_decide (0 ≤ pg ∧ pg * pageSize (self s) < len (self s)) then
       mkClient (self s) (S (fresh s))
         (emitted s ++ [SendFetch (mkRequest pg (Some (fresh s))); RecvDone (fresh s)])
     else s, Returns tt) ∧
  fetchPagesLater pgs s =
    (mkClient (self s) (fresh s)
       (emitted s ++
        ((λ q, SendFetch (mkRequest q None)) <$>
         filter (λ q, 0 ≤ q ∧ q * pageSize (self s) < len (self s)) pgs)),
     Returns tt).
Proof.
  intros Hws Hch. split.
  - by rewrite (fetchPageNow_sends s pg ch).
  - by rewrite (fetchPagesLater_sends s pgs ch).
Qed.

End FacadeRequests.

Lemma requests_only_for_pages_with_items_witness :
  let c := NewCachedSlicePaged "icons" ["a"; "b"; "c"] 2 0%nat in
  let s := mkClient c 1%nat [] in
  well_sized c ∧
  fetchPageNow 2 s = (s, Returns tt) ∧
  fetchPagesLater [-1; 1; 2; 0] s
  = (mkClient c 1%nat [SendFetch (mkRequest 1 None); SendFetch (mkRequest 0 None)],
     Returns tt).
Proof.
  intros c s.
  assert (Hws : well_sized (self s)) by (split; vm_compute; done).
  destruct (requests_only_for_pages_with_items s 2 [-1; 1; 2; 0] 0%nat Hws eq_refl)
    as [Hnow Hlater].
  split; [exact Hws|]. split; [exact Hnow|exact Hlater].
Defined.

(** ** Pages and indexed access *)

Section FacadeAccess.
Context {E : Type}.
Implicit Types (c : CachedSlicePaged E) (s : client E).

Lemma wrap32_id (z : Z) : - 2 ^ 31 ≤ z < 2 ^ 31 → wrap32 z = z.
Proof. intros H. unfold wrap32. rewrite Z.mod_small by lia. lia. Qed.

Lemma mapPageItems_range c pg :
  well_sized c → pageSize c < 2 ^ 31 → holds_items c pg →
  mapPageItems c pg
  = Returns (seqZ (pg * pageSize c) (Z.min (pageSize c) (len c - pg * pageSize c))).
Proof.
  intros [Hps Hlen] Hsmall [Hpg Hlt]. unfold mapPageItems.
  assert (0 ≤ pg * pageSize c) by nia.
  rewrite (wrap64_id (pg * pageSize c)) by lia.
  rewrite (wrap64_id (pg * pageSize c + pageSize c)) by lia.
  set (e := Z.min (len c) (pg * pageSize c + pageSize c)).
  assert (He : 0 < e - pg * pageSize c ≤ pageSize c) by (unfold e; lia).
  rewrite (wrap64_id (e - pg * pageSize c)) by lia.
  rewrite wrap32_id by lia.
  rewrite bool_decide_eq_false_2 by lia.
  rewrite bool_decide_eq_true_2 by lia.
  rewrite bool_decide_eq_false_2 by lia.
  rewrite bool_decide_eq_true_2 by lia.
  do 2 f_equal. unfold e. lia.
Qed.

(** The page [At] computes for an index of the collection. *)
Lemma page_of_index c pos :
  well_sized c → 0 ≤ pos < len c →
  let pg := pos `quot` pageSize c in
  0 ≤ pg ∧ pg * pageSize c ≤ pos < pg * pageSize c + pageSize c.
Proof.
  intros [Hps Hlen] Hpos pg.
  destruct (quot_rem_pos pos (pageSize c) Hps) as (Hq & Hr & Hnn & _).
  specialize (Hnn ltac:(lia)). fold pg in Hq. nia.
Qed.

(** X3. With a positive page size below 2^31, and the length of the
    collection plus one page within [int]: every index of the collection
    lies in exactly one page, the page [At] computes for it
    ([pos / pageSize]).  That page holds items, its items are indices of
    the collection and the index is among them, and no other page that
    holds items contains the index.  Loading the page calls [Load] on these
    items and on nothing else. *)
Theorem index_in_exactly_its_page c pos :
  well_sized c → pageSize c < 2 ^ 31 → 0 ≤ pos < len c →
  let pg := pos `quot` pageSize c in
  ∃ idxs,
    mapPageItems c pg = Returns idxs ∧
    pos ∈ idxs ∧
    Forall (λ j, 0 ≤ j < len c) idxs ∧
    task_calls c (LoadPage pg) = Returns (Load <$> idxs) ∧
    ∀ q, 0 ≤ q → q * pageSize c < len c → q ≠ pg →
      ∃ idxs', mapPageItems c q = Returns idxs' ∧ pos ∉ idxs'.
Proof.
  intros Hws Hsmall Hpos pg.
  destruct (page_of_index c pos Hws Hpos) as (Hpg & Hlo & Hhi). fold pg in Hpg, Hlo, Hhi.
  assert (Hh : holds_items c pg) by (split; lia).
  eexists. split; [by apply mapPageItems_range|].
  pose proof Hws as [Hps Hlen]. split_and!.
  - apply elem_of_seqZ. lia.
  - apply Forall_forall. intros j Hj%elem_of_seqZ. nia.
  - simpl. by rewrite mapPageItems_range.
  - intros q Hq0 Hq1 Hq. eexists. split; [by apply mapPageItems_range|].
    intros Hin%elem_of_seqZ. apply Hq. nia.
Qed.

End FacadeAccess.

Lemma index_in_exactly_its_page_witness :
  let c := NewCachedSlicePaged "icons" ["a"; "b"; "c"; "d"; "e"] 2 0%nat in
  well_sized c ∧ pageSize c < 2 ^ 31 ∧ 0 ≤ 4 < len c ∧
  ∃ idxs,
    mapPageItems c (4 `quot` pageSize c) = Returns idxs ∧
    4 ∈ idxs ∧
    Forall (λ j, 0 ≤ j < len c) idxs ∧
    task_calls c (LoadPage (4 `quot` pageSize c)) = Returns (Load <$> idxs) ∧
    ∀ q, 0 ≤ q → q * pageSize c < len c → q ≠ 4 `quot` pageSize c →
      ∃ idxs', mapPageItems c q = Returns idxs' ∧ 4 ∉ idxs'.
Proof.
  intros c.
  assert (Hws : well_sized c) by (split; vm_compute; done).
  assert (Hpos : 0 ≤ 4 < len c) by (vm_compute; split; [discriminate|done]).
  assert (Hsmall : pageSize c < 2 ^ 31) by (vm_compute; done).
  split; [exact Hws|]. split; [exact Hsmall|]. split; [exact Hpos|].
  exact (index_in_exactly_its_page c 4 Hws Hsmall Hpos).
Defined.

(** ** [At] on an index of the collection *)

Section FacadeAt.
Context {E : Type}.
Implicit Types (c : CachedSlicePaged E) (s : client E).

(** The page number of an index survives the 64-bit arithmetic. *)
Lemma page_number_exact c pos :
  well_sized c → 0 ≤ pos < len c →
  let pg := pos `quot` pageSize c in
  wrap64 pg = pg ∧ wrap64 (pg - 1) = pg - 1 ∧ wrap64 (pg + 1) = pg + 1 ∧
  holds_items c pg.
Proof.
  intros Hws Hpos pg.
  destruct (page_of_index c pos Hws Hpos) as (Hpg & Hlo & Hhi). fold pg in Hpg, Hlo, Hhi.
  destruct Hws as [Hps Hlen]. pose proof (len_nonneg c).
  assert (pg ≤ pos) by nia.
  split_and!; try (apply wrap64_id; lia). split; lia.
Qed.

Lemma At_found s pos item ch :
  well_sized (self s) → fetchC (self s) = Some ch →
  0 ≤ pos → items (self s) !! Z.to_nat pos = Some item →
  let pg := pos `quot` pageSize (self s) in
  At pos s =
    (mkClient (self s) (S (fresh s))
       (emitted s ++
        ((λ q, SendFetch (mkRequest q None)) <$>
           filter (holds_items (self s)) [pg - 1; pg + 1]) ++
        [SendFetch (mkRequest pg (Some (fresh s))); RecvDone (fresh s)]),
     Returns (Some item)).
Proof.
  intros Hws Hch Hpos Hitem pg.
  assert (Hlt : pos < len (self s)).
  { unfold len. apply lookup_lt_Some in Hitem. lia. }
  destruct (page_number_exact (self s) pos Hws ltac:(lia)) as (Hw & Hw1 & Hw2 & Hh).
  fold pg in Hw, Hw1, Hw2, Hh.
  unfold At. rewrite bool_decide_eq_false_2 by lia.
  rewrite bool_decide_eq_false_2 by (destruct Hws; lia).
  fold pg. rewrite Hw, Hw1, Hw2. unfold bind.
  rewrite (fetchPagesLater_sends s _ ch Hws Hch).
  erewrite fetchPageNow_sends; [|exact Hws|exact Hch].
  cbn [self fresh emitted].
  rewrite (bool_decide_eq_true_2 (holds_items _ _)) by done.
  rewrite (bool_decide_eq_false_2 (pos < 0)) by lia.
  cbn [self fresh emitted]. rewrite Hitem.
  unfold ret. by rewrite <- app_assoc.
Qed.

(** X4. With a positive page size, the length of the collection plus one
    page within [int], and the request channel open: on an index of the
    collection [At] returns the item at that index, found.  Before it
    returns it has sent a request without a slot for each neighbour page
    (the one before, then the one after) that holds items, then one request
    for the page of the index with a fresh channel, on which it has waited.
    The facade itself is unchanged. *)
Theorem At_returns_item_after_requesting_its_page s pos item ch :
  well_sized (self s) → fetchC (self s) = Some ch →
  0 ≤ pos → items (self s) !! Z.to_nat pos = Some item →
  let c := self s in
  let pg := pos `quot` pageSize c in
  let hints := filter (λ q, 0 ≤ q ∧ q * pageSize c < len c) [pg - 1; pg + 1] in
  ∃ s',
    At pos s = (s', Returns (Some item)) ∧
    self s' = c ∧
    emitted s' =
      emitted s ++ (SendFetch <$> ((λ q, mkRequest q None) <$> hints)
                    ++ [mkRequest pg (Some (fresh s))])
                ++ [RecvDone (fresh s)] ∧
    fresh s' = S (fresh s).
Proof.
  intros Hws Hch Hpos Hitem c pg hints. eexists. split.
  - by apply (At_found s pos item ch).
  - simpl. split_and!; [done| |done]. f_equal.
    rewrite fmap_app, <- list_fmap_compose, <- app_assoc. done.
Qed.

(** X5. With a positive page size and the length of the collection plus
    one page within [int]: after [Free], [At] on an index of the collection
    never returns, because the request channel is [nil] and the first send
    on it blocks; nothing is sent.  An index at or beyond the end is still
    answered not found. *)
Theorem At_after_Free_blocks s0 pos :
  well_sized (self s0) → 0 ≤ pos < len (self s0) →
  let s := (Free s0).1 in
  (∃ s', At pos s = (s', Blocks) ∧ emitted s' = emitted s) ∧
  At (len (self s0)) s = (s, Returns None).
Proof.
  intros Hws Hpos s.
  assert (Hself : self s = mkCachedSlicePaged (name (self s0)) (items (self s0))
                             (pageSize (self s0)) None).
  { unfold s, Free, bind, stopPreFetcher.
    destruct (fetchC (self s0)); rewrite (for_each_emit (λ j, Go (UnloadItem j))); done. }
  assert (Hws' : well_sized (self s)) by (by rewrite Hself).
  assert (Hlen : len (self s) = len (self s0)) by (by rewrite Hself).
  assert (Hnil : fetchC (self s) = None) by (by rewrite Hself).
  assert (Hps : pageSize (self s) = pageSize (self s0)) by (by rewrite Hself).
  split; [|apply At_beyond_end; lia].
  destruct (page_number_exact (self s) pos Hws' ltac:(lia)) as (Hw & Hw1 & Hw2 & Hh).
  unfold At. rewrite bool_decide_eq_false_2 by lia.
  rewrite bool_decide_eq_false_2 by (destruct Hws'; lia).
  rewrite Hw, Hw1, Hw2. generalize dependent (pos `quot` pageSize (self s)).
  intros pg _ _ _ Hh. clearbody s. clear Hself.
  unfold bind at 1. unfold fetchPagesLater. cbn [for_each].
  unfold bind at 1. unfold bind at 1.
  rewrite valid_page_holds_items by done.
  case_bool_decide.
  { unfold send_fetch. rewrite Hnil. by eexists. }
  unfold ret at 1. unfold bind at 1. unfold bind at 1.
  rewrite valid_page_holds_items by done.
  case_bool_decide.
  { unfold send_fetch. rewrite Hnil. by eexists. }
  unfold ret. unfold bind at 1. unfold fetchPageNow. unfold bind at 1.
  rewrite valid_page_holds_items by done.
  rewrite bool_decide_eq_true_2 by done.
  unfold bind, make_chan, send_fetch. simpl. rewrite Hnil. by eexists.
Qed.

End FacadeAt.

Lemma At_returns_item_after_requesting_its_page_witness :
  let c := NewCachedSlicePaged "icons" ["a"; "b"; "c"; "d"; "e"] 2 0%nat in
  let s := mkClient c 5%nat [] in
  well_sized c ∧
  ∃ s',
    At 2 s = (s', Returns (Some "c")) ∧
    self s' = c ∧
    emitted s' =
      [SendFetch (mkRequest 0 None); SendFetch (mkRequest 2 None);
       SendFetch (mkRequest 1 (Some 5%nat)); RecvDone 5%nat] ∧
    fresh s' = 6%nat.
Proof.
  intros c s.
  assert (Hws : well_sized (self s)) by (split; vm_compute; done).
  split; [exact Hws|].
  exact (At_returns_item_after_requesting_its_page s 2 "c" 0%nat
           Hws eq_refl ltac:(vm_compute; discriminate) eq_refl).
Defined.

Lemma At_after_Free_blocks_witness :
  let c := NewCachedSlicePaged "icons" ["a"; "b"; "c"] 2 0%nat in
  let s0 := mkClient c 1%nat [] in
  well_sized c ∧ 0 ≤ 1 < len c ∧
  (∃ s', At 1 (Free s0).1 = (s', Blocks) ∧ emitted s' = emitted (Free s0).1) ∧
  At 3 (Free s0).1 = ((Free s0).1, Returns None).
Proof.
  intros c s0.
  assert (Hws : well_sized (self s0)) by (split; vm_compute; done).
  assert (Hpos : 0 ≤ 1 < len (self s0)) by (vm_compute; split; [discriminate|done]).
  split; [exact Hws|]. split; [exact Hpos|].
  exact (At_after_Free_blocks s0 1 Hws Hpos).
Defined.

(** ** [Free] and [Get] on the facade *)

Section FacadeLifecycle.
Context {E : Type}.
Implicit Types (c : CachedSlicePaged E) (s : client E).

(** X6. A second [Free] does not close the request channel again (closing
    a closed channel would panic): the first one has set it to [nil].  It
    returns, leaves the facade as it is, and starts the unloading of every
    item once more. *)
Theorem Free_again_does_not_close s0 :
  let s1 := (Free s0).1 in
  let s2 := (Free s1).1 in
  fetchC (self s1) = None ∧
  (Free s1).2 = Returns tt ∧
  self s2 = self s1 ∧
  emitted s2 = emitted s1 ++ (Go <$> (UnloadItem <$> seq 0 (length (items (self s0))))) ∧
  CloseFetch ∉ (Go <$> (UnloadItem <$> seq 0 (length (items (self s0))))).
Proof.
  intros s1 s2.
  assert (Hs1 : self s1 = mkCachedSlicePaged (name (self s0)) (items (self s0))
                            (pageSize (self s0)) None).
  { unfold s1, Free, bind, stopPreFetcher.
    destruct (fetchC (self s0)); rewrite (for_each_emit (λ j, Go (UnloadItem j))); done. }
  assert (Hfree : Free s1 =
            (mkClient (self s1) (fresh s1)
               (emitted s1 ++ (Go <$> (UnloadItem <$> seq 0 (length (items (self s0)))))),
             Returns tt)).
  { unfold Free, bind, stopPreFetcher. rewrite Hs1. cbn [fetchC self].
    rewrite (for_each_emit (λ j, Go (UnloadItem j))). cbn.
    by rewrite <- list_fmap_compose. }
  unfold s2. rewrite Hfree. rewrite Hs1. split_and!; try done.
  intros (t & Ht & _)%list_elem_of_fmap. done.
Qed.

(** The walk of [Get] over the facade with the consumer of
    [slices.Collect]. *)
Lemma walk_collects (n : nat) :
  ∀ from s acc ch,
    well_sized (self s) → fetchC (self s) = Some ch → 0 ≤ from →
    ∃ s', walk (λ i, with_items (At i)) (seqZ from (Z.of_nat n)) collect_yield (s, acc)
          = ((s', acc ++ take n (drop (Z.to_nat from) (items (self s)))), Returns tt)
          ∧ self s' = self s.
Proof.
  induction n as [|n IH]; intros from s acc ch Hws Hch Hfrom.
  - exists s. rewrite seqZ_nil by lia. simpl. by rewrite take_0, app_nil_r.
  - rewrite seqZ_cons by lia. cbn [walk]. unfold bind at 1. unfold with_items at 1.
    destruct (items (self s) !! Z.to_nat from) as [item|] eqn:Hitem.
    + rewrite (At_found s from item ch Hws Hch Hfrom Hitem).
      unfold bind at 1. unfold collect_yield at 1.
      replace (Z.pred (Z.of_nat (S n))) with (Z.of_nat n) by lia.
      match goal with |- context [walk _ _ _ (?s1, _)] => set (s1' := s1) end.
      destruct (IH (Z.succ from) s1' (acc ++ [item]) ch) as (s' & Hwalk & Hself);
        [done|done|lia|].
      exists s'. rewrite Hwalk. split; [|done]. do 2 f_equal.
      cbn [self s1']. rewrite <- app_assoc. f_equal.
      rewrite (drop_S _ _ _ Hitem). simpl. do 2 f_equal.
      f_equal. lia.
    + rewrite At_beyond_end.
      2:{ apply lookup_ge_None in Hitem. unfold len. lia. }
      exists s. unfold ret. split; [|done]. do 2 f_equal.
      apply lookup_ge_None in Hitem. rewrite drop_ge by lia.
      by rewrite take_nil, app_nil_r.
Qed.

(** X7. Collecting the iterator [Get] over the facade, as the views do for
    the visible range: with a positive page size, the length of the
    collection plus one page within [int], the request channel open and
    [from] not negative, the result is the items of the collection at the
    indices from [from] up to, not including, [to], cut at the end of the
    collection; the call returns and the facade is unchanged. *)
Theorem Collect_Get_returns_the_range s from to ch :
  well_sized (self s) → fetchC (self s) = Some ch → 0 ≤ from →
  ∃ s',
    slices_Collect (Get (λ i, with_items (At i)) from to) s
    = (s', Returns (take (Z.to_nat (to - from))
                      (drop (Z.to_nat from) (items (self s))))) ∧
    self s' = self s.
Proof.
  intros Hws Hch Hfrom. unfold slices_Collect.
  rewrite (Get_is_walk _ _ from to _ eq_refl). unfold indices.
  destruct (walk_collects (Z.to_nat (to - from)) from s [] ch Hws Hch Hfrom)
    as (s' & Hwalk & Hself).
  destruct (decide (0 ≤ to - from)) as [Hn|Hn].
  - rewrite Z2Nat.id in Hwalk by done. rewrite Hwalk. by exists s'.
  - rewrite seqZ_nil by lia. simpl.
    replace (Z.to_nat (to - from)) with 0%nat by lia. by exists s.
Qed.

End FacadeLifecycle.

Lemma Collect_Get_returns_the_range_witness :
  let c := NewCachedSlicePaged "icons" ["a"; "b"; "c"; "d"; "e"] 2 0%nat in
  let s := mkClient c 1%nat [] in
  well_sized c ∧
  ∃ s',
    slices_Collect (Get (λ i, with_items (At i)) 3 9) s
    = (s', Returns ["d"; "e"]) ∧
    self s' = c.
Proof.
  intros c s.
  assert (Hws : well_sized (self s)) by (split; vm_compute; done).
  split; [exact Hws|].
  exact (Collect_Get_returns_the_range s 3 9 0%nat Hws eq_refl
           ltac:(vm_compute; discriminate)).
Defined.

(** ** More on the resident-page set *)

Section ResidentSetMore.
Import PageCache PageCacheFacts.

(** The page added is in the set afterwards. *)
Lemma add_retains pc x :
  (length (pages pc) ≤ 5)%nat → x ∈ pages (add pc x).1.
Proof.
  intros Hle.
  destruct (decide (x ∈ pages pc)) as [Hx|Hx].
  { by rewrite add_present. }
  destruct (decide (length (pages pc) < 5)%nat) as [Hl|Hl].
  { rewrite add_room by done. simpl. set_solver. }
  assert (Hlen : length (pages pc) = 5%nat) by lia.
  set (ps := slices_Sort (pages pc ++ [x])).
  assert (Hin : x ∈ ps).
  { unfold ps. rewrite slices_Sort_perm. set_solver. }
  destruct (slices_Index_found ps x Hin) as (i & Hi & Hlook & Hfirst).
  destruct (decide (2 ≤ slices_Index ps x)) as [Hup|Hlow].
  - destruct (add_upper_half pc x Hx Hlen Hup) as (small & rest & Hps & _ & ->).
    fold ps in Hps. simpl. rewrite Hps in Hlook.
    rewrite Hi in Hup. destruct i as [|i]; [lia|].
    simpl in Hlook. by eapply list_elem_of_lookup_2.
  - assert (Hlow' : slices_Index ps x < 2) by lia.
    destruct (add_lower_half pc x Hx Hlen Hlow') as (front & fifth & big & Hps & _ & ->).
    fold ps in Hps. simpl. rewrite Hps in Hlook.
    assert (Hlenps : length ps = 6%nat).
    { unfold ps. rewrite slices_Sort_length, length_app, Hlen. done. }
    rewrite Hps, !length_app in Hlenps. simpl in Hlenps.
    change (front ++ [fifth; big]) with (front ++ [fifth] ++ [big]) in Hlook.
    rewrite app_assoc in Hlook.
    rewrite Hi in Hlow.
    rewrite lookup_app_l in Hlook by (rewrite length_app; simpl; lia).
    by eapply list_elem_of_lookup_2.
Qed.

(** X8. On a set of distinct pages within the capacity, [add] leaves the
    added page in the set.  It reports an eviction only when the set was
    full and the page new; the page it reports is then one of the pages
    that were in the set, never the page just added, and the set is full
    again.  Without an eviction the set is unchanged for a page already
    present and has the page appended otherwise. *)
Theorem add_reports_a_page_that_was_resident pc x :
  NoDup (pages pc) → (length (pages pc) ≤ 5)%nat →
  x ∈ pages (add pc x).1 ∧
  (if (add pc x).2.2 then
     length (pages pc) = 5%nat ∧ (x ∉ pages pc) ∧
     ((add pc x).2.1 ∈ pages pc) ∧ (add pc x).2.1 ≠ x ∧
     length (pages (add pc x).1) = 5%nat
   else
     pages (add pc x).1 = if contains pc x then pages pc else pages pc ++ [x]).
Proof.
  intros Hnd Hle. split; [by apply add_retains|].
  destruct (decide (x ∈ pages pc)) as [Hx|Hx].
  { rewrite add_present by done. simpl. by rewrite (proj2 (contains_true pc x) Hx). }
  destruct (decide (length (pages pc) < 5)%nat) as [Hl|Hl].
  { rewrite add_room by done. simpl. by rewrite (proj2 (contains_false pc x) Hx). }
  assert (Hlen : length (pages pc) = 5%nat) by lia.
  set (ps := slices_Sort (pages pc ++ [x])).
  assert (Hperm : ps ≡ₚ pages pc ++ [x]) by apply slices_Sort_perm.
  assert (Hndps : NoDup ps).
  { rewrite Hperm. apply NoDup_app. split_and!; [done| |apply NoDup_singleton].
    intros y Hy ->%list_elem_of_singleton. done. }
  assert (Hin : x ∈ ps) by (rewrite Hperm; set_solver).
  destruct (slices_Index_found ps x Hin) as (i & Hi & Hlook & _).
  assert (Hold : ∀ y, y ∈ ps → y ≠ x → y ∈ pages pc).
  { intros y Hy Hne. rewrite Hperm in Hy.
    apply elem_of_app in Hy as [Hy|Hy%list_elem_of_singleton]; [done|congruence]. }
  destruct (decide (2 ≤ slices_Index ps x)) as [Hup|Hlow].
  - destruct (add_upper_half pc x Hx Hlen Hup) as (small & rest & Hps & _ & ->).
    fold ps in Hps. simpl.
    assert (Hne : small ≠ x).
    { intros ->. rewrite Hps in Hndps, Hlook. destruct i as [|i]; [lia|].
      apply NoDup_cons in Hndps as [Hnotin _]. apply Hnotin.
      by eapply list_elem_of_lookup_2. }
    split_and!; try done.
    + apply Hold; [|done]. rewrite Hps. set_solver.
    + assert (length ps = 6%nat) as Hl6.
      { unfold ps. rewrite slices_Sort_length, length_app, Hlen. done. }
      rewrite Hps in Hl6. simpl in Hl6. lia.
  - assert (Hlow' : slices_Index ps x < 2) by lia.
    destruct (add_lower_half pc x Hx Hlen Hlow') as (front & fifth & big & Hps & _ & ->).
    fold ps in Hps. simpl.
    assert (Hl6 : length ps = 6%nat).
    { unfold ps. rewrite slices_Sort_length, length_app, Hlen. done. }
    rewrite Hps, length_app in Hl6. simpl in Hl6.
    assert (Hne : fifth ≠ x).
    { intros ->. rewrite Hps in Hndps, Hlook.
      assert (Hl4 : (front ++ [x; big]) !! 4%nat = Some x).
      { rewrite lookup_app_r by lia. by replace (4 - length front)%nat with 0%nat by lia. }
      pose proof (NoDup_lookup _ _ _ _ Hndps Hlook Hl4). lia. }
    split_and!; try done.
    + apply Hold; [|done]. rewrite Hps. set_solver.
    + rewrite length_app. simpl. lia.
Qed.

Lemma add_reports_a_page_that_was_resident_witness :
  let pc := mkPageCache [3; 9; 4; 8; 6] in
  NoDup (pages pc) ∧ (length (pages pc) ≤ 5)%nat ∧
  7 ∈ pages (add pc 7).1 ∧
  (if (add pc 7).2.2 then
     length (pages pc) = 5%nat ∧ (7 ∉ pages pc) ∧
     ((add pc 7).2.1 ∈ pages pc) ∧ (add pc 7).2.1 ≠ 7 ∧
     length (pages (add pc 7).1) = 5%nat
   else
     pages (add pc 7).1 = if contains pc 7 then pages pc else pages pc ++ [7]).
Proof.
  intros pc.
  assert (Hnd : NoDup (pages pc)).
  { apply (bool_decide_unpack _). vm_compute. exact I. }
  assert (Hle : (length (pages pc) ≤ 5)%nat) by (simpl; lia).
  split; [exact Hnd|]. split; [exact Hle|].
  exact (add_reports_a_page_that_was_resident pc 7 Hnd Hle).
Defined.

(** Sorting a slice with a new largest element appended. *)
Lemma slices_Sort_snoc_largest (l : list Z) (x : Z) :
  Forall (λ y, y < x) l → slices_Sort (l ++ [x]) = slices_Sort l ++ [x].
Proof.
  intros Hall. apply (StronglySorted_unique Z.le).
  - apply slices_Sort_sorted.
  - apply StronglySorted_app. split_and!.
    + intros y z Hy ->%list_elem_of_singleton.
      rewrite slices_Sort_perm in Hy.
      rewrite Forall_forall in Hall. specialize (Hall y Hy). lia.
    + apply slices_Sort_sorted.
    + repeat constructor.
  - by rewrite !slices_Sort_perm.
Qed.

(** X9. Scrolling forward: when the set is full and the new page is above
    every page of the set, the smallest page is evicted and returned, and
    the set becomes the other four in ascending order followed by the new
    page.  The evicted page is no longer in the set. *)
Theorem add_above_all_evicts_smallest pc x :
  NoDup (pages pc) → length (pages pc) = 5%nat →
  Forall (λ y, y < x) (pages pc) →
  ∃ small rest,
    slices_Sort (pages pc) = small :: rest ∧
    Forall (Z.le small) (pages pc) ∧
    add pc x = (mkPageCache (rest ++ [x]), (small, true)) ∧
    contains (add pc x).1 small = false.
Proof.
  intros Hnd Hlen Hall.
  assert (Hx : x ∉ pages pc).
  { intros Hx. rewrite Forall_forall in Hall. specialize (Hall x Hx). lia. }
  pose proof (slices_Sort_snoc_largest _ _ Hall) as Hsort.
  assert (Hl5 : length (slices_Sort (pages pc)) = 5%nat) by by rewrite slices_Sort_length.
  assert (Hxs : x ∉ slices_Sort (pages pc)) by by rewrite slices_Sort_perm.
  assert (Hidx : slices_Index (slices_Sort (pages pc ++ [x])) x = 5).
  { rewrite Hsort.
    destruct (slices_Index_found (slices_Sort (pages pc) ++ [x]) x ltac:(set_solver))
      as (i & -> & Hlook & _).
    destruct (decide (i < 5)%nat) as [Hi|Hi].
    - rewrite lookup_app_l in Hlook by lia.
      exfalso. apply Hxs. by eapply list_elem_of_lookup_2.
    - apply lookup_lt_Some in Hlook. rewrite length_app in Hlook. simpl in Hlook. lia. }
  destruct (add_upper_half pc x Hx Hlen ltac:(lia)) as (small & rest & Hps & Hmin & Hadd).
  rewrite Hsort in Hps.
  destruct (slices_Sort (pages pc)) as [|s0 r0] eqn:Hs; [done|].
  simpl in Hps. injection Hps as <- <-.
  exists s0, r0. split; [done|].
  pose proof (slices_Sort_sorted (pages pc)) as Hsorted. rewrite Hs in Hsorted.
  apply StronglySorted_inv in Hsorted as [_ Hfa].
  assert (Hnd0 : NoDup (s0 :: r0)) by (rewrite <- Hs, slices_Sort_perm; done).
  apply NoDup_cons in Hnd0 as [Hs0 _].
  split_and!.
  - apply Forall_forall. intros y Hy. rewrite <- slices_Sort_perm, Hs in Hy.
    apply elem_of_cons in Hy as [->|Hy]; [lia|].
    rewrite Forall_forall in Hfa. by apply Hfa.
  - done.
  - rewrite Hadd. apply contains_false. simpl.
    intros [Hin|Hin%list_elem_of_singleton]%elem_of_app; [done|].
    subst x. apply Hxs. set_solver.
Qed.

Lemma add_above_all_evicts_smallest_witness :
  let pc := mkPageCache [3; 1; 2; 5; 4] in
  NoDup (pages pc) ∧ length (pages pc) = 5%nat ∧ Forall (λ y, y < 6) (pages pc) ∧
  ∃ small rest,
    slices_Sort (pages pc) = small :: rest ∧
    Forall (Z.le small) (pages pc) ∧
    add pc 6 = (mkPageCache (rest ++ [6]), (small, true)) ∧
    contains (add pc 6).1 small = false.
Proof.
  intros pc.
  assert (Hnd : NoDup (pages pc)).
  { apply (bool_decide_unpack _). vm_compute. exact I. }
  assert (Hall : Forall (λ y, y < 6) (pages pc)).
  { apply (bool_decide_unpack _). vm_compute. exact I. }
  split; [exact Hnd|]. split; [reflexivity|]. split; [exact Hall|].
  exact (add_above_all_evicts_smallest pc 6 Hnd eq_refl Hall).
Defined.

End ResidentSetMore.

(** ** Runs of the coordinator *)

Section CoordinatorRuns.
Import LoaderFacts PageCacheFacts.

Lemma run_cons st m ms :
  Coordinator.run st (m :: ms) =
    match Coordinator.step st m with
    | (st', evs, Running) =>
        (let '(st'', evs', r) := Coordinator.run st' ms in (st'', evs ++ evs', r))
    | stop => stop
    end.
Proof. done. Qed.

Lemma done_tracked_perm l pg :
  Loader.isActive l pg = true →
  Loader.tracked l ≡ₚ pg :: Loader.tracked (Loader.done l pg).1.
Proof.
  unfold Loader.isActive. intros [[i e] Hf]%bool_decide_eq_true.
  pose proof (done_perm _ _ _ _ Hf) as Hperm.
  apply index_of_Some in Hf as [_ Hp].
  unfold Loader.tracked. rewrite <- Hperm, fmap_cons. by rewrite Hp.
Qed.

Lemma step_coherent st m :
  coherent st → coherent (Coordinator.step st m).1.1.
Proof.
  intros (Hnd & Hle & Hndt & Hdis). destruct m as [req| |pg]; simpl.
  - destruct (PageCache.contains (cache st) (page req)) eqn:Hc.
    { by destruct (done req). }
    destruct (Loader.track (inflight st) req) as [l new] eqn:Ht. simpl.
    pose proof (track_NoDup _ req Hndt) as Hndt'.
    pose proof (track_tracked (inflight st) req) as Htr.
    rewrite Ht in Hndt', Htr. simpl in Hndt', Htr.
    split_and!; try done.
    apply contains_false in Hc. apply Forall_forall. intros y Hy.
    cbn [cache inflight] in Hy |- *.
    rewrite Forall_forall in Hdis. specialize (Hdis y Hy). rewrite Htr.
    destruct (Loader.isActive _ _); [done|].
    intros [?| ->%list_elem_of_singleton]%elem_of_app; done.
  - done.
  - destruct (Loader.isActive (inflight st) pg) eqn:Ha; simpl; [|done].
    destruct (PageCache.add (cache st) pg) as [pc [ep ev]] eqn:Hadd.
    destruct (Loader.done (inflight st) pg) as [l sends] eqn:Hdone. simpl.
    pose proof (add_NoDup (cache st) pg Hnd) as H1.
    pose proof (add_size (cache st) pg Hle) as H2.
    pose proof (add_subset (cache st) pg) as H3.
    pose proof (done_NoDup (inflight st) pg Hndt) as H4.
    pose proof (done_tracked_perm _ _ Ha) as H5.
    rewrite Hadd in H1, H2, H3. rewrite Hdone in H4, H5. simpl in *.
    split_and!; try done.
    assert (Hnd5 : NoDup (pg :: Loader.tracked l)) by by rewrite <- H5.
    apply NoDup_cons in Hnd5 as [Hpg _].
    apply Forall_forall. intros y Hy Hyt.
    apply H3 in Hy. apply elem_of_app in Hy as [Hy| ->%list_elem_of_singleton]; [|done].
    rewrite Forall_forall in Hdis. apply (Hdis y Hy). rewrite H5. by right.
Qed.

Lemma init_coherent : coherent Coordinator.init.
Proof.
  split_and!; simpl; [apply NoDup_nil_2|lia|apply NoDup_nil_2|apply Forall_nil_2].
Qed.

Lemma run_coherent ms : ∀ st, coherent st → coherent (Coordinator.run st ms).1.1.
Proof.
  induction ms as [|m ms IH]; intros st Hst; [done|].
  rewrite run_cons. pose proof (step_coherent st m Hst) as Hstep.
  destruct (Coordinator.step st m) as [[st' evs] [| |msg]]; [|done..].
  specialize (IH st' Hstep).
  by destruct (Coordinator.run st' ms) as [[st'' evs'] r].
Qed.

(** X10. Whatever messages the coordinator has handled since it started,
    its resident pages are distinct and at most [cacheSize], its tracker
    has one entry per page, and no resident page is in flight. *)
Theorem coordinator_state_is_coherent (ms : list message) :
  let st := (Coordinator.run Coordinator.init ms).1.1 in
  NoDup (pages (cache st)) ∧
  Z.of_nat (length (pages (cache st))) ≤ cacheSize ∧
  NoDup (Loader.tracked (inflight st)) ∧
  Forall (λ pg, Loader.isActive (inflight st) pg = false) (pages (cache st)).
Proof.
  intros st. destruct (run_coherent ms _ init_coherent) as (H1 & H2 & H3 & H4).
  fold st in H1, H2, H3, H4. unfold cacheSize. split_and!; [done|lia|done|].
  eapply Forall_impl; [exact H4|]. intros pg Hpg. by apply isActive_false.
Qed.

End CoordinatorRuns.

(** ** Accounts of loads and waiters over a run *)

Lemma occurrences_app {A} `{EqDecision A} (x : A) (l1 l2 : list A) :
  occurrences x (l1 ++ l2) = (occurrences x l1 + occurrences x l2)%nat.
Proof. unfold occurrences. by rewrite filter_app, length_app. Qed.

Lemma occurrences_cons {A} `{EqDecision A} (x y : A) (l : list A) :
  occurrences x (y :: l) = ((if decide (y = x) then 1 else 0) + occurrences x l)%nat.
Proof. unfold occurrences. rewrite filter_cons. by destruct (decide (y = x)). Qed.

Lemma spawned_app evs1 evs2 : spawned (evs1 ++ evs2) = spawned evs1 ++ spawned evs2.
Proof. apply omap_app. Qed.

Lemma notified_app evs1 evs2 : notified (evs1 ++ evs2) = notified evs1 ++ notified evs2.
Proof. apply omap_app. Qed.

Lemma spawned_sends pg (ws : list chan) : spawned ((λ c, SendDone c pg) <$> ws) = [].
Proof. induction ws; [done|]. done. Qed.

Lemma notified_sends pg (ws : list chan) :
  notified ((λ c, SendDone c pg) <$> ws) = (λ c, (c, pg)) <$> ws.
Proof.
  induction ws as [|c ws IH]; [done|].
  rewrite !fmap_cons. unfold notified in *. cbn. by f_equal.
Qed.

Section Accounts.
Import LoaderFacts PageCacheFacts.

Lemma track_returns l req :
  (Loader.track l req).2 = negb (Loader.isActive l (page req)).
Proof.
  unfold Loader.track, Loader.isActive.
  destruct (Loader.index_of l (page req)) as [[i e]|] eqn:Hf.
  - by rewrite bool_decide_eq_true_2 by eauto.
  - by rewrite bool_decide_eq_false_2 by (by intros [? ?]).
Qed.

Lemma done_sends l pg :
  ∃ ws, (Loader.done l pg).2 = (λ c, SendDone c pg) <$> ws.
Proof.
  unfold Loader.done. destruct (Loader.index_of l pg) as [[i e]|].
  - by exists (reply e).
  - by exists [].
Qed.

(** Whether a page is tracked, as a number. *)
Lemma active_b2n l pg :
  Nat.b2n (Loader.isActive l pg) = if decide (pg ∈ Loader.tracked l) then 1%nat else 0%nat.
Proof.
  destruct (Loader.isActive l pg) eqn:Ha.
  - apply isActive_true in Ha. by rewrite decide_True.
  - apply isActive_false in Ha. by rewrite decide_False.
Qed.

Lemma step_loads st m st' evs pg :
  NoDup (Loader.tracked (inflight st)) →
  Coordinator.step st m = (st', evs, Running) →
  (occurrences (LoadPage pg) (spawned evs) + Nat.b2n (Loader.isActive (inflight st) pg)
   = occurrences pg (readied [m]) + Nat.b2n (Loader.isActive (inflight st') pg))%nat.
Proof.
  intros Hnd Hstep. destruct m as [req| |pg0]; simpl in Hstep.
  - destruct (PageCache.contains (cache st) (page req)).
    { destruct (done req); by injection Hstep as <- <-. }
    pose proof (track_returns (inflight st) req) as Hnew.
    pose proof (track_tracked (inflight st) req) as Htr.
    destruct (Loader.track (inflight st) req) as [l new]. simpl in Hnew, Htr.
    injection Hstep as <- <-. cbn [inflight]. rewrite !active_b2n, Htr.
    destruct (Loader.isActive (inflight st) (page req)) eqn:Ha; subst new; simpl.
    + done.
    + apply isActive_false in Ha.
      change (spawned [Go (LoadPage (page req))]) with [LoadPage (page req)].
      change (readied [Request req]) with (@nil Z).
      rewrite occurrences_cons.
      change (occurrences (LoadPage pg) []) with 0%nat.
      change (occurrences pg []) with 0%nat.
      destruct (decide (pg = page req)) as [->|Hne].
      * rewrite decide_True by done.
        rewrite (decide_False (P := page req ∈ _)) by done.
        rewrite decide_True; [done|].
        apply elem_of_app. right. by apply list_elem_of_singleton.
      * rewrite decide_False by congruence.
        destruct (decide (pg ∈ Loader.tracked (inflight st))) as [Hin|Hin].
        -- rewrite decide_True; [done|]. apply elem_of_app. by left.
        -- rewrite decide_False; [done|].
           intros [?| ?%list_elem_of_singleton]%elem_of_app; done.
  - done.
  - destruct (Loader.isActive (inflight st) pg0) eqn:Ha; simpl in Hstep; [|done].
    pose proof (done_tracked_perm _ _ Ha) as Hperm.
    destruct (done_sends (inflight st) pg0) as [ws Hws].
    destruct (PageCache.add (cache st) pg0) as [pc [ep ev]].
    destruct (Loader.done (inflight st) pg0) as [l sends]. simpl in Hperm, Hws.
    injection Hstep as <- <-. cbn [inflight]. subst sends.
    rewrite spawned_app, spawned_sends, app_nil_r.
    assert (Hev : occurrences (LoadPage pg) (spawned (if ev then [Go (UnloadPage ep)] else [])) = 0%nat).
    { by destruct ev. }
    rewrite Hev, !active_b2n.
    assert (Hnd' : NoDup (pg0 :: Loader.tracked l)) by by rewrite <- Hperm.
    apply NoDup_cons in Hnd' as [Hpg0 _].
    change (readied [Ready pg0]) with [pg0].
    rewrite occurrences_cons. change (occurrences pg []) with 0%nat.
    destruct (decide (pg = pg0)) as [->|Hne].
    + rewrite (decide_True (P := pg0 = pg0)) by done.
      rewrite (decide_True (P := pg0 ∈ Loader.tracked (inflight st)))
        by (rewrite Hperm; by left).
      by rewrite decide_False.
    + rewrite (decide_False (P := pg0 = pg)) by congruence.
      destruct (decide (pg ∈ Loader.tracked l)) as [Hin|Hin].
      * rewrite decide_True; [done|]. rewrite Hperm. by right.
      * rewrite decide_False; [done|]. rewrite Hperm.
        intros [?|?]%elem_of_cons; done.
Qed.

Lemma run_loads ms : ∀ st st' evs pg,
  coherent st →
  Coordinator.run st ms = (st', evs, Running) →
  (occurrences (LoadPage pg) (spawned evs) + Nat.b2n (Loader.isActive (inflight st) pg)
   = occurrences pg (readied ms) + Nat.b2n (Loader.isActive (inflight st') pg))%nat.
Proof.
  induction ms as [|m ms IH]; intros st st' evs pg Hst Hrun.
  - simpl in Hrun. by injection Hrun as <- <-.
  - rewrite run_cons in Hrun.
    pose proof (step_coherent st m Hst) as Hst1.
    destruct (Coordinator.step st m) as [[st1 evs1] [| |msg]] eqn:Hstep; [|done..].
    destruct (Coordinator.run st1 ms) as [[st2 evs2] r] eqn:Hrun2.
    injection Hrun as <- <- ->.
    pose proof (step_loads st m st1 evs1 pg (proj1 (proj2 (proj2 Hst))) Hstep) as H1.
    pose proof (IH st1 st2 evs2 pg Hst1 Hrun2) as H2.
    rewrite spawned_app, occurrences_app.
    change (readied (m :: ms)) with (readied ([m] ++ ms)).
    unfold readied in *. rewrite omap_app, occurrences_app. lia.
Qed.

(** X11. Over any run of the coordinator from its start that has not
    stopped, the loads started for a page are as many as the times the page
    was reported ready, plus one when the page is still tracked: a page has
    at most one load outstanding at any time, and a second load of it is
    started only after the first was reported ready. *)
Theorem loads_started_match_pages_readied ms st evs pg :
  Coordinator.run Coordinator.init ms = (st, evs, Running) →
  occurrences (LoadPage pg) (spawned evs)
  = (occurrences pg (readied ms)
     + (if Loader.isActive (inflight st) pg then 1 else 0))%nat.
Proof.
  intros Hrun. pose proof (run_loads ms _ _ _ pg init_coherent Hrun) as H.
  change (Loader.isActive (inflight Coordinator.init) pg) with false in H.
  simpl in H. rewrite Nat.add_0_r in H. rewrite H.
  by destruct (Loader.isActive (inflight st) pg).
Qed.

End Accounts.

Lemma loads_started_match_pages_readied_witness :
  let ms := [Request (mkRequest 4 (Some 1%nat)); Request (mkRequest 4 None);
             Ready 4; Request (mkRequest 5 None)] in
  ∃ st evs,
    Coordinator.run Coordinator.init ms = (st, evs, Running) ∧
    occurrences (LoadPage 4) (spawned evs)
    = (occurrences 4%Z (readied ms)
       + (if Loader.isActive (inflight st) 4%Z then 1 else 0))%nat.
Proof.
  intros ms. eexists _, _.
  assert (Hrun : Coordinator.run Coordinator.init ms
                 = ((Coordinator.run Coordinator.init ms).1.1,
                    (Coordinator.run Coordinator.init ms).1.2, Running))
    by reflexivity.
  split; [exact Hrun|].
  exact (loads_started_match_pages_readied ms _ _ 4 Hrun).
Defined.

Section Waiters.
Import LoaderFacts PageCacheFacts.

Lemma track_waiting l req :
  waiting (Loader.track l req).1
  ≡ₚ waiting l ++ ((λ c, (c, page req)) <$> option_list (done req)).
Proof.
  unfold Loader.track, waiting.
  destruct (Loader.index_of l (page req)) as [[i e]|] eqn:Hf; simpl.
  - apply index_of_Some in Hf as [Hi Hp].
    rewrite insert_take_drop by (by eapply lookup_lt_Some).
    rewrite <- (take_drop_middle (loading l) i e Hi) at 3.
    rewrite !bind_app, !bind_cons. simpl. rewrite Hp.
    destruct (done req) as [c|]; simpl.
    + rewrite fmap_app. simpl. rewrite <- !app_assoc. do 2 f_equiv.
      apply Permutation_app_comm.
    + by rewrite app_nil_r.
  - rewrite bind_app, bind_singleton. simpl. by destruct (done req).
Qed.

Lemma done_waiting l pg :
  waiting l ≡ₚ notified (Loader.done l pg).2 ++ waiting (Loader.done l pg).1.
Proof.
  destruct (Loader.index_of l pg) as [[i e]|] eqn:Hf.
  - pose proof (done_perm _ _ _ _ Hf) as Hperm.
    unfold waiting at 1. rewrite <- Hperm, bind_cons.
    unfold Loader.done in *. rewrite Hf in *. simpl.
    rewrite notified_sends. apply index_of_Some in Hf as [_ ->]. done.
  - unfold Loader.done. by rewrite Hf.
Qed.

Lemma step_waiters st m :
  waiting (inflight st) ++ asked [m]
  ≡ₚ notified (Coordinator.step st m).1.2 ++ waiting (inflight (Coordinator.step st m).1.1).
Proof.
  destruct m as [req| |pg]; unfold asked; simpl.
  - destruct (PageCache.contains (cache st) (page req)).
    + destruct (done req) as [c|]; simpl.
      * by rewrite Permutation_app_comm.
      * by rewrite app_nil_r.
    + pose proof (track_waiting (inflight st) req) as Ht.
      destruct (Loader.track (inflight st) req) as [l new]. simpl in *.
      rewrite Ht.
      replace (notified (if new then [Go (LoadPage (page req))] else []))
        with (@nil (nat * Z)) by (by destruct new).
      simpl. f_equiv. by destruct (done req).
  - by rewrite app_nil_r.
  - rewrite app_nil_r.
    destruct (Loader.isActive (inflight st) pg); simpl; [|done].
    pose proof (done_waiting (inflight st) pg) as Hd.
    destruct (PageCache.add (cache st) pg) as [pc [ep ev]].
    destruct (Loader.done (inflight st) pg) as [l sends]. simpl in *.
    rewrite notified_app. by destruct ev.
Qed.

Lemma run_waiters ms : ∀ st st' evs,
  Coordinator.run st ms = (st', evs, Running) →
  waiting (inflight st) ++ asked ms ≡ₚ notified evs ++ waiting (inflight st').
Proof.
  induction ms as [|m ms IH]; intros st st' evs Hrun.
  - simpl in Hrun. injection Hrun as <- <-. by rewrite app_nil_r.
  - rewrite run_cons in Hrun. pose proof (step_waiters st m) as Hstep.
    destruct (Coordinator.step st m) as [[st1 evs1] [| |msg]]; [|done..].
    destruct (Coordinator.run st1 ms) as [[st2 evs2] r] eqn:Hrun2.
    injection Hrun as <- <- ->. cbn [fst snd] in Hstep.
    specialize (IH st1 st2 evs2 Hrun2).
    change (asked (m :: ms)) with (asked ([m] ++ ms)).
    unfold asked in *. rewrite omap_app, app_assoc, Hstep.
    rewrite notified_app, <- !app_assoc. f_equiv. exact IH.
Qed.

(** X12. No waiter is lost and none is answered twice: over any run of the
    coordinator from its start that has not stopped, the blocking requests
    it received (slot and page) are, up to order, the notifications it has
    sent together with the waiters still recorded in its tracker. *)
Theorem every_blocking_request_is_answered_or_waiting ms st evs :
  Coordinator.run Coordinator.init ms = (st, evs, Running) →
  asked ms ≡ₚ notified evs ++ waiting (inflight st).
Proof. intros Hrun. by rewrite <- (run_waiters ms _ _ _ Hrun). Qed.

(** X13. A notification is sent only for a page that is resident when the
    step that sends it is over: from any state the coordinator can reach,
    whatever message it handles next, each page it notifies a slot about is
    in the resident set it leaves. *)
Theorem notified_pages_are_resident (ms : list message) (m : message) :
  let st := (Coordinator.run Coordinator.init ms).1.1 in
  let st' := (Coordinator.step st m).1.1 in
  Forall (λ cp, PageCache.contains (cache st') cp.2 = true)
    (notified (Coordinator.step st m).1.2).
Proof.
  intros st st'. unfold st'.
  destruct (run_coherent ms _ init_coherent) as (_ & Hle & _). fold st in Hle.
  generalize dependent st. intros st _ Hle.
  destruct m as [req| |pg]; simpl.
  - destruct (PageCache.contains (cache st) (page req)) eqn:Hc.
    + destruct (done req); simpl; [|done]. by repeat constructor.
    + destruct (Loader.track (inflight st) req) as [l new]. simpl. by destruct new.
  - done.
  - destruct (Loader.isActive (inflight st) pg); simpl; [|done].
    pose proof (add_retains (cache st) pg Hle) as Hin.
    destruct (done_sends (inflight st) pg) as [ws Hws].
    destruct (PageCache.add (cache st) pg) as [pc [ep ev]].
    destruct (Loader.done (inflight st) pg) as [l sends]. simpl in *. subst sends.
    rewrite notified_app, notified_sends.
    replace (notified (if ev then [Go (UnloadPage ep)] else [])) with (@nil (nat * Z))
      by (by destruct ev).
    simpl. apply Forall_fmap, Forall_forall. intros c _. simpl.
    by apply contains_true.
Qed.

End Waiters.

Lemma every_blocking_request_is_answered_or_waiting_witness :
  let ms := [Request (mkRequest 4 (Some 1%nat)); Request (mkRequest 4 (Some 2%nat));
             Request (mkRequest 5 (Some 3%nat)); Ready 4;
             Request (mkRequest 4 (Some 6%nat))] in
  ∃ st evs,
    Coordinator.run Coordinator.init ms = (st, evs, Running) ∧
    asked ms ≡ₚ notified evs ++ waiting (inflight st).
Proof.
  intros ms. eexists _, _.
  assert (Hrun : Coordinator.run Coordinator.init ms
                 = ((Coordinator.run Coordinator.init ms).1.1,
                    (Coordinator.run Coordinator.init ms).1.2, Running))
    by reflexivity.
  split; [exact Hrun|].
  exact (every_blocking_request_is_answered_or_waiting ms _ _ Hrun).
Defined.

(** ** The offset over the grid *)

Section OffsetFacts.
Import Layout.

Lemma Area_fits o rows cols :
  fits o rows cols → Area (grid o) = Returns (rows * cols) ∧ 0 < rows * cols.
Proof.
  intros (Hd & Hr & Hc & Hl & Hb). unfold Area. rewrite Hd. simpl.
  split; [|nia]. rewrite wrap64_id; [done|nia].
Qed.

Lemma go_div_exact (a b : Z) :
  0 ≤ a < 2 ^ 63 → 0 < b →
  ∃ q, go_div a b = Returns q ∧ 0 ≤ q ∧ q * b ≤ a < q * b + b.
Proof.
  intros Ha Hb. unfold go_div. rewrite bool_decide_eq_false_2 by lia.
  destruct (quot_rem_pos a b Hb) as (Hq & Hr & Hnn & _). specialize (Hnn ltac:(lia)).
  assert (0 ≤ a `quot` b) by nia. assert (a `quot` b ≤ a) by nia.
  rewrite wrap64_id by lia. eexists. split; [done|]. nia.
Qed.

Lemma GotoPage_fits o rows cols pg :
  fits o rows cols →
  GotoPage o pg =
    Returns (if bool_decide (0 ≤ pg ∧ pg * (rows * cols) < limit o)
             then mkOffset (grid o) (pg * (rows * cols)) (limit o) else o).
Proof.
  intros Hfit. destruct (Area_fits _ _ _ Hfit) as [Ha Hpos].
  destruct Hfit as (Hd & Hr & Hc & Hl & Hb).
  unfold GotoPage. rewrite Ha. cbn [and_then].
  destruct (intCeil_bounds (limit o) (rows * cols) Hpos ltac:(lia)) as (n & -> & Hlo & Hhi).
  cbn [and_then]. destruct (decide (0 ≤ pg ∧ pg < n)) as [H1|H1].
  - rewrite (bool_decide_eq_true_2 (0 ≤ pg ∧ pg < n)) by done.
    rewrite bool_decide_eq_true_2 by nia.
    rewrite wrap64_id by nia. done.
  - rewrite (bool_decide_eq_false_2 (0 ≤ pg ∧ pg < n)) by done.
    rewrite bool_decide_eq_false_2; [done|]. nia.
Qed.

(** X14. Page numbers round-trip through the offset: on a grid with at
    least one row and one column, [GotoPage] of a page that holds an item
    moves the offset to the first item of that page, and [CurrentPage]
    then answers that page; [GotoPage] of any other number leaves the
    offset as it is.  The grid and the limit are never changed. *)
Theorem GotoPage_then_CurrentPage o rows cols pg :
  fits o rows cols →
  ∃ o',
    GotoPage o pg = Returns o' ∧ grid o' = grid o ∧ limit o' = limit o ∧
    if bool_decide (0 ≤ pg ∧ pg * (rows * cols) < limit o)
    then pos o' = pg * (rows * cols) ∧ CurrentPage o' = Returns pg
    else o' = o.
Proof.
  intros Hfit. eexists. split; [by apply (GotoPage_fits o rows cols)|].
  destruct (Area_fits _ _ _ Hfit) as [Ha Hpos].
  pose proof Hfit as (Hd & Hr & Hc & Hl & Hb).
  case_bool_decide as Hv; [|done]. simpl. split_and!; try done.
  unfold CurrentPage, PageOfItem. simpl.
  rewrite bool_decide_eq_true_2 by nia. rewrite Ha. simpl.
  unfold go_div. rewrite bool_decide_eq_false_2 by lia.
  rewrite Z.quot_mul by lia. rewrite wrap64_id; [done|nia].
Qed.

Lemma apply_move_in_range o rows cols m :
  fits o rows cols → 0 ≤ pos o ≤ limit o →
  ∃ o', apply_move o m = Returns o' ∧ grid o' = grid o ∧ limit o' = limit o ∧
        0 ≤ pos o' ≤ limit o'.
Proof.
  intros Hfit Hpos. pose proof Hfit as (Hd & Hr & Hc & Hl & Hb).
  destruct m as [| |pg]; simpl.
  - unfold MoveUpRow. rewrite Hd. simpl. eexists. split; [done|]. simpl.
    rewrite wrap64_id by nia. split_and!; try done; lia.
  - unfold MoveDownRow. rewrite Hd. simpl. eexists. split; [done|]. simpl.
    rewrite (wrap64_id (rows * cols)) by nia.
    rewrite (wrap64_id (pos o + cols)) by nia.
    rewrite (wrap64_id (limit o - rows * cols)) by nia.
    rewrite wrap64_id by nia. split_and!; try done; nia.
  - rewrite (GotoPage_fits o rows cols) by done. eexists. split; [done|].
    case_bool_decide; simpl; split_and!; try done; nia.
Qed.

Lemma moves_in_range ms : ∀ o rows cols,
  fits o rows cols → 0 ≤ pos o ≤ limit o →
  ∃ o', moves o ms = Returns o' ∧ grid o' = grid o ∧ limit o' = limit o ∧
        0 ≤ pos o' ≤ limit o'.
Proof.
  induction ms as [|m ms IH]; intros o rows cols Hfit Hpos.
  - by exists o.
  - destruct (apply_move_in_range o rows cols m Hfit Hpos) as (o1 & H1 & Hg & Hl & Hp).
    simpl. rewrite H1. simpl.
    assert (Hfit1 : fits o1 rows cols).
    { unfold fits in *. by rewrite Hg, Hl. }
    destruct (IH o1 rows cols Hfit1 Hp) as (o2 & H2 & Hg2 & Hl2 & Hp2).
    exists o2. split; [done|]. split; [congruence|]. split; [congruence|done].
Qed.

Lemma Visible_fits o rows cols :
  fits o rows cols → 0 ≤ pos o ≤ limit o →
  Visible o = Returns (pos o, Z.min (limit o) (pos o + rows * cols)).
Proof.
  intros Hfit Hpos. destruct (Area_fits _ _ _ Hfit) as [Ha Hpos'].
  destruct Hfit as (Hd & Hr & Hc & Hl & Hb).
  unfold Visible. rewrite Ha. simpl. rewrite wrap64_id by nia. done.
Qed.

(** X15. However the view is scrolled from its start (rows up and down,
    jumps to pages), on a grid with at least one row and one column no
    move panics, the offset stays between 0 and the limit, and the visible
    range is a range of the collection: 0 ≤ from ≤ to ≤ limit with at most
    rows * cols items. *)
Theorem scrolling_keeps_the_visible_range_inside g lim rows cols ms :
  fits (NewOffset g lim) rows cols →
  ∃ o from to,
    moves (NewOffset g lim) ms = Returns o ∧
    Visible o = Returns (from, to) ∧
    from = pos o ∧ 0 ≤ from ≤ to ∧ to ≤ lim ∧ to - from ≤ rows * cols.
Proof.
  intros Hfit. pose proof Hfit as (Hd & Hr & Hc & Hl & Hb). simpl in Hl.
  destruct (moves_in_range ms (NewOffset g lim) rows cols Hfit ltac:(simpl; lia))
    as (o & Hm & Hg & Hlim & Hp). simpl in Hlim.
  assert (Hfit' : fits o rows cols).
  { unfold fits in *. by rewrite Hg, Hlim. }
  exists o. eexists _, _. split; [done|].
  split; [by apply (Visible_fits o rows cols)|]. nia.
Qed.

(** X16. Going to the page of an item shows the item: for an index of the
    collection, [PageOfItem] answers a page, [GotoPage] of that page moves
    the offset, and the index lies in the visible range afterwards. *)
Theorem page_of_item_shows_the_item o rows cols i :
  fits o rows cols → 0 ≤ i < limit o →
  ∃ pg o' to,
    PageOfItem o i = Returns pg ∧
    GotoPage o pg = Returns o' ∧
    Visible o' = Returns (pos o', to) ∧
    pos o' ≤ i < to.
Proof.
  intros Hfit Hi. destruct (Area_fits _ _ _ Hfit) as [Ha Hpos].
  pose proof Hfit as (Hd & Hr & Hc & Hl & Hb).
  destruct (go_div_exact i (rows * cols) ltac:(nia) Hpos) as (q & Hq & Hq0 & Hqi).
  exists q, (mkOffset (grid o) (q * (rows * cols)) (limit o)),
    (Z.min (limit o) (q * (rows * cols) + rows * cols)).
  split; [|split; [|split]].
  - unfold PageOfItem. rewrite bool_decide_eq_true_2 by lia. rewrite Ha. exact Hq.
  - rewrite (GotoPage_fits o rows cols) by done.
    by rewrite bool_decide_eq_true_2 by nia.
  - apply (Visible_fits (mkOffset (grid o) (q * (rows * cols)) (limit o)) rows cols);
      [done|simpl; nia].
  - simpl. lia.
Qed.

End OffsetFacts.

Section OffsetWitnesses.
Import Layout.

Lemma window_fits pos0 : fits (mkOffset small_window pos0 20) 2 3.
Proof. split; [reflexivity|]. simpl. lia. Qed.

Lemma GotoPage_then_CurrentPage_witness :
  fits (mkOffset small_window 0 20) 2 3 ∧
  ∃ o',
    GotoPage (mkOffset small_window 0 20) 3 = Returns o' ∧
    grid o' = small_window ∧ limit o' = 20 ∧
    if bool_decide (0 ≤ 3 ∧ 3 * (2 * 3) < 20)
    then pos o' = 3 * (2 * 3) ∧ CurrentPage o' = Returns 3
    else o' = mkOffset small_window 0 20.
Proof.
  split; [apply window_fits|].
  exact (GotoPage_then_CurrentPage (mkOffset small_window 0 20) 2 3 3 (window_fits 0)).
Defined.

Lemma scrolling_keeps_the_visible_range_inside_witness :
  fits (NewOffset small_window 20) 2 3 ∧
  ∃ o from to,
    moves (NewOffset small_window 20) [DownRow; Goto 3; DownRow; DownRow; UpRow] = Returns o ∧
    Visible o = Returns (from, to) ∧
    from = pos o ∧ 0 ≤ from ≤ to ∧ to ≤ 20 ∧ to - from ≤ 2 * 3.
Proof.
  split; [apply window_fits|].
  exact (scrolling_keeps_the_visible_range_inside small_window 20 2 3
           [DownRow; Goto 3; DownRow; DownRow; UpRow] (window_fits 0)).
Defined.

Lemma page_of_item_shows_the_item_witness :
  fits (mkOffset small_window 0 20) 2 3 ∧ 0 ≤ 13 < 20 ∧
  ∃ pg o' to,
    PageOfItem (mkOffset small_window 0 20) 13 = Returns pg ∧
    GotoPage (mkOffset small_window 0 20) pg = Returns o' ∧
    Visible o' = Returns (pos o', to) ∧
    pos o' ≤ 13 < to.
Proof.
  split; [apply window_fits|]. split; [lia|].
  exact (page_of_item_shows_the_item (mkOffset small_window 0 20) 2 3 13
           (window_fits 0) ltac:(simpl; lia)).
Defined.

End OffsetWitnesses.

(** ** What a view paints *)

Section Painted.
Import Layout.
Context {E : Type}.

(** X17. What a view collects to paint: on a grid with at least one row
    and one column (and sizes within the exact range), with the limit of
    the offset the length of the collection, a positive page size, the
    length of the collection plus one page within [int] and the request
    channel open, however the view was scrolled from its start, collecting
    the visible range from the cache returns the items of the collection
    from the offset on, at most rows * cols of them, and leaves the facade
    as it is. *)
Theorem painted_items_are_the_visible_page
    (g : Grid) (rows cols : Z) (ms : list move) (s : client E) (ch : chan) :
  fits (NewOffset g (len (self s))) rows cols →
  well_sized (self s) → fetchC (self s) = Some ch →
  ∃ o s',
    moves (NewOffset g (len (self s))) ms = Returns o ∧
    visible_items o s
    = (s', Returns (take (Z.to_nat (rows * cols))
                      (drop (Z.to_nat (pos o)) (items (self s))))) ∧
    self s' = self s.
Proof.
  intros Hfit Hws Hch. pose proof Hfit as (Hd & Hr & Hc & Hl & Hb). simpl in Hl.
  destruct (moves_in_range ms _ rows cols Hfit ltac:(simpl; lia))
    as (o & Hm & Hg & Hlim & Hp). simpl in Hlim.
  assert (Hfit' : fits o rows cols).
  { unfold fits in *. by rewrite Hg, Hlim. }
  pose proof (Visible_fits o rows cols Hfit' Hp) as Hv.
  set (n := Z.to_nat (Z.min (limit o) (pos o + rows * cols) - pos o)).
  destruct (walk_collects n (pos o) s [] ch Hws Hch ltac:(lia)) as (s' & Hwalk & Hself).
  exists o, s'. split; [done|]. split; [|done].
  unfold visible_items. rewrite Hv. unfold slices_Collect.
  rewrite (Get_is_walk _ _ _ _ _ eq_refl). unfold indices.
  fold n. replace (Z.min (limit o) (pos o + rows * cols) - pos o) with (Z.of_nat n)
    by (unfold n; lia).
  rewrite Hwalk. simpl. do 2 f_equal.
  destruct (decide (limit o - pos o ≤ rows * cols)) as [Hshort|Hlong].
  - rewrite !take_ge; [done| |].
    + rewrite length_drop. unfold len in Hlim. lia.
    + rewrite length_drop. unfold len in Hlim. unfold n. lia.
  - f_equal. unfold n. lia.
Qed.

End Painted.

Lemma painted_items_are_the_visible_page_witness :
  let c := NewCachedSlicePaged "icons" ["a"; "b"; "c"; "d"; "e"; "f"; "g"; "h"] 6 0%nat in
  let s := mkClient c 1%nat [] in
  let g := Layout.NewGrid
             (Layout.mkRectangle (Layout.mkPoint 0 0) (Layout.mkPoint 100 60))
             (Layout.mkPoint 20 20) 5 in
  Layout.fits (Layout.NewOffset g (len (self s))) 2 3 ∧ well_sized c ∧
  ∃ o s',
    Layout.moves (Layout.NewOffset g (len (self s))) [Layout.DownRow] = Returns o ∧
    visible_items o s
    = (s', Returns (take (Z.to_nat (2 * 3))
                      (drop (Z.to_nat (Layout.pos o)) (items (self s))))) ∧
    self s' = self s.
Proof.
  intros c s g.
  assert (Hfit : Layout.fits (Layout.NewOffset g (len (self s))) 2 3).
  { split; [reflexivity|]. split_and!; vm_compute; done. }
  assert (Hws : well_sized (self s)) by (split; vm_compute; done).
  split; [exact Hfit|]. split; [exact Hws|].
  exact (painted_items_are_the_visible_page g 2 3 [Layout.DownRow] s 0%nat
           Hfit Hws eq_refl).
Defined.

(** ** Requests while a page is resident *)

Section ResidentRequests.
Import LoaderFacts PageCacheFacts.





End ResidentRequests.


